(** * Fixed-point reciprocal square root (rsqrt-c.c)

    A shallow embedding of the three core functions of
    [3-pipeline/csrc/rsqrt-c.c]: the shift-add multiplier [mul32], the
    leading-zero count [clz] and the Q16 estimator [fast_rsqrt], together
    with the table [rsqrt_table].

    Machine integers are values of [Z]; every place where the C program
    wraps a [uint32_t] or a [uint64_t] is written out as a reduction
    modulo [2^32] or [2^64].  Operations whose behaviour C leaves undefined
    (a shift by a count outside the width of the operand, an array access
    outside the array) return [None].

    The rest of the file is embedded as well: the bare-metal [memcpy] on a
    byte-addressed memory, [get_cycles] on a model of the 64-bit cycle
    counter read through its two 32-bit registers, and the test run [main],
    which stores its results and cycle counts at fixed addresses.  The
    three core functions are also given as calls on the shared state of
    the program, to state that they neither change nor depend on it. *)

From Stdlib Require Import ZArith List Lia Bool Reals Lra.
Import ListNotations.

Local Open Scope Z_scope.

(** ** Machine integers *)

Module Word.

Definition modulus32 : Z := 2 ^ 32.
Definition modulus64 : Z := 2 ^ 64.

(** Conversion to [uint32_t] and [uint64_t]. *)
Definition u32 (z : Z) : Z := z mod modulus32.
Definition u64 (z : Z) : Z := z mod modulus64.

Definition in_u32 (z : Z) : Prop := 0 <= z < modulus32.
Definition in_u64 (z : Z) : Prop := 0 <= z < modulus64.

(** [x << n] and [x >> n] on an operand of the given width; [None] when
    the count is negative or not below the width. *)
Definition shl (width : Z) (x n : Z) : option Z :=
  if (0 <=? n) && (n <? width)
  then Some (Z.shiftl x n mod 2 ^ width)
  else None.

Definition shr (width : Z) (x n : Z) : option Z :=
  if (0 <=? n) && (n <? width)
  then Some (Z.shiftr x n)
  else None.

End Word.

Import Word.

(** ** A small error monad for the partial operations *)

Definition bind {A B : Type} (m : option A) (k : A -> option B) : option B :=
  match m with
  | Some a => k a
  | None => None
  end.

Notation "x <- m ;; k" := (bind m (fun x => k))
  (at level 61, m at next level, right associativity).

(** ** Loops with constant bounds

    [for_loop n i body s] runs [body i], [body (i+1)], ..., [n] times in
    all, threading the loop state: the C loop
    [for (int j = i; j < i + n; ++j) body]. *)

Fixpoint for_loop {S : Type} (n : nat) (i : Z) (body : Z -> S -> S) (s : S) : S :=
  match n with
  | O => s
  | Datatypes.S n' => for_loop n' (i + 1) body (body i s)
  end.

(** The same loop with a counter of the executions of its body next to
    the loop state. *)
Definition counting {S : Type} (body : Z -> S -> S) (i : Z) (st : S * nat)
  : S * nat :=
  (body i (fst st), Datatypes.S (snd st)).

(** ** mul32: 32x32 -> 64 shift-add multiply *)

(** One iteration of the loop of [mul32]. *)
Definition mul32_body (a b : Z) (i : Z) (r : Z) : Z :=
  if Z.eqb (Z.land b (u32 (Z.shiftl 1 i))) 0
  then r
  else u64 (r + u64 (Z.shiftl a i)).

Definition mul32 (a b : Z) : Z :=
  for_loop 32 0 (mul32_body a b) 0.

(** ** clz: count leading zeros *)

(** One narrowing step: [if (!(x & mask)) { n += k; x <<= k; }] on the
    pair [(n, x)]. *)
Definition clz_step (mask k : Z) (st : Z * Z) : Z * Z :=
  let '(n, x) := st in
  if Z.eqb (Z.land x mask) 0
  then (n + k, u32 (Z.shiftl x k))
  else (n, x).

Definition clz (x : Z) : Z :=
  if Z.eqb x 0 then 32
  else
    let st := (0, x) in
    let st := clz_step 0xFFFF0000 16 st in
    let st := clz_step 0xFF000000 8 st in
    let st := clz_step 0xF0000000 4 st in
    let st := clz_step 0xC0000000 2 st in
    let '(n, x) := st in
    if Z.eqb (Z.land x 0x80000000) 0 then n + 1 else n.

(** ** The lookup table *)

Definition rsqrt_table : list Z :=
  [ 65536; 46341; 32768; 23170; 16384;
    11585;  8192;  5793;  4096;  2896;
     2048;  1448;  1024;   724;   512;
      362;   256;   181;   128;    90;
       64;    45;    32;    23;    16;
       11;     8;     6;     4;     3;
        2;     1 ].

(** [rsqrt_table[i]]; [None] outside the array. *)
Definition table_get (i : Z) : option Z :=
  if i <? 0 then None else nth_error rsqrt_table (Z.to_nat i).

(** ** fast_rsqrt *)

(** Step 3 of [fast_rsqrt], the linear interpolation, split into the
    locals of the source. *)

Definition interp_y_next (exp : Z) : option Z :=
  if exp <? 31 then table_get (exp + 1) else Some 0.

Definition interp_delta (y y_next : Z) : Z := u32 (y - y_next).

Definition interp_frac (x exp : Z) : option Z :=
  p <- shl 64 1 exp ;;
  s <- shl 64 (u64 (x - p)) 16 ;;
  q <- shr 64 s exp ;;
  Some (u32 q).

Definition interp_correction (delta frac : Z) : Z :=
  u32 (Z.shiftr (mul32 delta frac) 16).

Definition interpolate (x exp y : Z) : option Z :=
  p <- shl 32 1 exp ;;
  if p <? x then
    y_next <- interp_y_next exp ;;
    let delta := interp_delta y y_next in
    frac <- interp_frac x exp ;;
    Some (u32 (y - interp_correction delta frac))
  else Some y.

(** Step 4: one Newton-Raphson iteration. *)
Definition newton_step (x y : Z) : Z :=
  let y2 := u32 (mul32 y y) in
  let xy2 := u32 (Z.shiftr (mul32 x y2) 16) in
  u32 (Z.shiftr (mul32 y (u32 (u32 (Z.shiftl 3 16) - xy2))) 17).

Definition fast_rsqrt (x : Z) : option Z :=
  if Z.eqb x 0 then Some 0xFFFFFFFF
  else if Z.eqb x 1 then Some 65536
  else
    let exp := 31 - clz x in
    y <- table_get exp ;;
    y <- interpolate x exp y ;;
    Some (for_loop 2 0 (fun _ y => newton_step x y) y).

(** ** memcpy: bare-metal byte copy *)

(** Byte-addressed memory: the byte stored at each address.  Addresses
    are integers; pointer arithmetic that would leave the address space is
    undefined in C and is not modelled. *)
Definition memory : Type := Z -> Byte.byte.

Definition store (m : memory) (a : Z) (v : Byte.byte) : memory :=
  fun a' => if a' =? a then v else m a'.

(** [while (n--) *d++ = *s++;] with [n] iterations left, on the state
    [(d, s, memory)]. *)
Fixpoint memcpy_loop (n : nat) (d s : Z) (m : memory) : memory :=
  match n with
  | O => m
  | S n' => memcpy_loop n' (d + 1) (s + 1) (store m d (m s))
  end.

(** [memcpy dest src n] on the memory [m]: the memory after the call and
    the returned pointer. *)
Definition memcpy (m : memory) (dest src n : Z) : memory * Z :=
  (memcpy_loop (Z.to_nat n) dest src m, dest).

(** ** get_cycles: the 64-bit cycle counter read as two words *)

(** The two control registers read by [get_cycles], as functions of the
    64-bit cycle counter: [cycle] is its low word and [cycleh] its high
    word. *)
Definition csr_cycle (t : Z) : Z := u32 t.
Definition csr_cycleh (t : Z) : Z := u32 (Z.shiftr t 32).

(** [get_cycles]: [clock i] is the value of the cycle counter at the [i]-th
    register read of the run, [k] the number of reads made so far, and
    [fuel] bounds the iterations of the [do ... while (hi != hi2)] loop.
    The result is the returned value with the new number of reads. *)
Fixpoint get_cycles (fuel : nat) (clock : nat -> Z) (k : nat)
  : option (Z * nat) :=
  match fuel with
  | O => None
  | S fuel' =>
      let hi := csr_cycleh (clock k) in
      let lo := csr_cycle (clock (k + 1)%nat) in
      let hi2 := csr_cycleh (clock (k + 2)%nat) in
      if hi =? hi2
      then Some (Z.lor (u64 (Z.shiftl hi 32)) lo, (k + 3)%nat)
      else get_cycles fuel' clock (k + 3)%nat
  end.

(** ** main: the test run *)

(** Word-addressed view of the memory [main] writes to: the 32-bit word
    stored at each (4-aligned) byte address. *)
Definition wmemory : Type := Z -> Z.

Definition wstore (m : wmemory) (a v : Z) : wmemory :=
  fun a' => if a' =? a then v else m a'.

(** The inputs of the test run. *)
Definition main_xs : list Z :=
  [1; 4; 16; 20; 30; 100; 120; 130; 0; 0xFFFFFFFF].

(** One iteration of the loop of [main] for the input [x], with the
    current values of [l] and [j], on the state made of the number of
    register reads so far and the memory. *)
Definition main_body (fuel : nat) (clock : nat -> Z) (x l j : Z)
           (st : nat * wmemory) : option (nat * wmemory) :=
  s <- get_cycles fuel clock (fst st) ;;
  let start_cycles := fst s in
  y <- fast_rsqrt x ;;
  let m := wstore (snd st) l y in
  e <- get_cycles fuel clock (snd s) ;;
  let end_cycles := fst e in
  let cycles_elapsed := u64 (end_cycles - start_cycles) in
  let m := wstore m j (u32 (Z.land cycles_elapsed 0xffffffff)) in
  let m := wstore m (j + 4) (u32 (Z.shiftr cycles_elapsed 32)) in
  Some (snd e, m).

(** The loop of [main] over the remaining inputs; [l] and [j] advance by
    12 after each one. *)
Fixpoint main_loop (fuel : nat) (clock : nat -> Z) (xs : list Z) (l j : Z)
         (st : nat * wmemory) : option (nat * wmemory) :=
  match xs with
  | [] => Some st
  | x :: xs' =>
      st' <- main_body fuel clock x l j st ;;
      main_loop fuel clock xs' (l + 12) (j + 12) st'
  end.

(** [main]: the final state and the returned value 0. *)
Definition main (fuel : nat) (clock : nat -> Z) (st : nat * wmemory)
  : option (nat * wmemory * Z) :=
  st' <- main_loop fuel clock main_xs 4 8 st ;;
  Some (st', 0).

(** ** The shared state of the program, and calls as computations on it *)

(** What a function of this program can share with another: the object
    [rsqrt_table], the memory that [main] and [memcpy] store to, and the
    cycle counter, which moves on with every register read. *)
Record world : Type := World {
  w_table : list Z;
  w_memory : wmemory;
  w_reads : nat
}.

(** A call: from the state before it to its result and the state after;
    [None] for undefined behaviour. *)
Definition comp (A : Type) : Type := world -> option (A * world).

Definition ret {A : Type} (a : A) : comp A := fun w => Some (a, w).

Definition bindc {A B : Type} (m : comp A) (k : A -> comp B) : comp B :=
  fun w =>
    match m w with
    | Some (a, w') => k a w'
    | None => None
    end.

Notation "x <-- m ;; k" := (bindc m (fun x => k))
  (at level 61, m at next level, right associativity).

(** An operation on locals whose behaviour may be undefined. *)
Definition local {A : Type} (o : option A) : comp A :=
  fun w =>
    match o with
    | Some a => Some (a, w)
    | None => None
    end.

(** The accesses to the shared state: the load [rsqrt_table[i]], the
    store of the word [v] at the address [a], and a read of the cycle
    counter. *)
Definition load_table (i : Z) : comp Z :=
  fun w =>
    if i <? 0 then None
    else
      match nth_error (w_table w) (Z.to_nat i) with
      | Some v => Some (v, w)
      | None => None
      end.

Definition store_word (a v : Z) : comp unit :=
  fun w => Some (tt, World (w_table w) (wstore (w_memory w) a v) (w_reads w)).

Definition read_counter (clock : nat -> Z) : comp Z :=
  fun w => Some (clock (w_reads w),
                 World (w_table w) (w_memory w) (S (w_reads w))).

(** A loop with constant bounds whose body is a computation. *)
Fixpoint for_loop_c {S : Type} (n : nat) (i : Z) (body : Z -> S -> comp S)
         (s : S) : comp S :=
  match n with
  | O => ret s
  | Datatypes.S n' => s' <-- body i s ;; for_loop_c n' (i + 1) body s'
  end.

(** The three functions as calls.  [mul32] and [clz] work on their
    parameters and locals; [fast_rsqrt] loads [rsqrt_table[exp]] and, when
    it interpolates below the last exponent, [rsqrt_table[exp + 1]]. *)
Definition mul32_call (a b : Z) : comp Z :=
  for_loop_c 32 0 (fun i r => ret (mul32_body a b i r)) 0.

Definition clz_call (x : Z) : comp Z :=
  if Z.eqb x 0 then ret 32
  else
    st <-- ret (0, x) ;;
    st <-- ret (clz_step 0xFFFF0000 16 st) ;;
    st <-- ret (clz_step 0xFF000000 8 st) ;;
    st <-- ret (clz_step 0xF0000000 4 st) ;;
    st <-- ret (clz_step 0xC0000000 2 st) ;;
    ret (if Z.eqb (Z.land (snd st) 0x80000000) 0 then fst st + 1 else fst st).

Definition interpolate_call (x exp y : Z) : comp Z :=
  p <-- local (shl 32 1 exp) ;;
  if p <? x then
    y_next <-- (if exp <? 31 then load_table (exp + 1) else ret 0) ;;
    let delta := interp_delta y y_next in
    frac <-- local (interp_frac x exp) ;;
    m <-- mul32_call delta frac ;;
    ret (u32 (y - u32 (Z.shiftr m 16)))
  else ret y.

Definition newton_call (x y : Z) : comp Z :=
  m <-- mul32_call y y ;;
  let y2 := u32 m in
  m <-- mul32_call x y2 ;;
  let xy2 := u32 (Z.shiftr m 16) in
  m <-- mul32_call y (u32 (u32 (Z.shiftl 3 16) - xy2)) ;;
  ret (u32 (Z.shiftr m 17)).

Definition fast_rsqrt_call (x : Z) : comp Z :=
  if Z.eqb x 0 then ret 0xFFFFFFFF
  else if Z.eqb x 1 then ret 65536
  else
    c <-- clz_call x ;;
    let exp := 31 - c in
    y <-- load_table exp ;;
    y <-- interpolate_call x exp y ;;
    for_loop_c 2 0 (fun _ y => newton_call x y) y.

(** * Specification-level definitions *)

(** The accumulator after the bits below [i] have been examined. *)
Definition mul32_partial (a b i : Z) : Z := a * (b mod 2 ^ i).

(** The specification of [clz]: scan the bits from position [n-1] down and
    count the zero bits met before the first set bit. *)
Fixpoint leading_zeros_from (n : nat) (x : Z) : Z :=
  match n with
  | O => 0
  | S n' =>
      if Z.testbit x (Z.of_nat n') then 0
      else 1 + leading_zeros_from n' x
  end.

Definition leading_zeros (x : Z) : Z := leading_zeros_from 32 x.

(** The mask with bits [k .. 31] set: [0xFFFF0000] for [k = 16],
    [0x80000000] for [k = 31]. *)
Definition high_mask (k : Z) : Z := Z.shiftl (Z.ones (32 - k)) k.

(** The integers [0, 1, ..., n-1], to check a decidable property on all of
    them by computation. *)
Definition Zrange (n : nat) : list Z := map Z.of_nat (seq 0 n).

(** The entry at [e] and the value the interpolation takes for the next
    one, checked together. *)
Definition table_step_ok (e : Z) : bool :=
  match table_get e, interp_y_next e with
  | Some y, Some y_next => (0 <=? y_next) && (y_next <? y) && (y <=? 65536)
  | _, _ => false
  end.

(** The exponents at which the Newton iterations lower the table entry. *)
Definition newton_lowers (e : Z) : bool :=
  existsb (Z.eqb e) [7; 23; 27; 29].

(** [fast_rsqrt (2^e)] against the table entry at [e]. *)
Definition pow2_result_ok (e : Z) : bool :=
  match table_get e, fast_rsqrt (2 ^ e) with
  | Some t, Some y => y =? (if newton_lowers e then t - 1 else t)
  | _, _ => false
  end.

(** [fast_rsqrt (2^e1)] against [fast_rsqrt (2^e2)] for [e1 < e2]. *)
Definition pow2_pair_ok (e1 e2 : Z) : bool :=
  if e1 <? e2 then
    match fast_rsqrt (2 ^ e1), fast_rsqrt (2 ^ e2) with
    | Some y1, Some y2 =>
        (y2 <=? y1) && ((y2 <? y1) || ((e1 =? 29) && (e2 =? 30)))
    | _, _ => false
    end
  else true.

(** The real number that the table entry at [e] approximates:
    [65536 / sqrt (2^e)]. *)
Definition rsqrt_q16 (e : Z) : R := (65536 / sqrt (IZR (2 ^ e)))%R.

(** [n] is [r] rounded to the nearest integer, halves rounded up. *)
Definition rounds_to (r : R) (n : Z) : Prop :=
  (IZR n - / 2 <= r < IZR n + / 2)%R.

(** The same test on integers: [n - 1/2 <= 65536 / sqrt (2^e) < n + 1/2]
    after squaring, [(2n-1)^2 * 2^e <= 2^34 < (2n+1)^2 * 2^e]. *)
Definition rounds_to_rsqrt (e n : Z) : bool :=
  ((2 * n - 1) ^ 2 * 2 ^ e <=? 2 ^ 34) && (2 ^ 34 <? (2 * n + 1) ^ 2 * 2 ^ e).

Definition table_entry_rounded (e : Z) : bool :=
  match table_get e with
  | Some t => (1 <=? t) && rounds_to_rsqrt e t
  | None => false
  end.

(** ** Definitions for the further properties *)

(** The Newton update of the source read over the integers, with no
    reduction modulo [2^32]:
    [y * ((3 << 16) - (x * y^2 >> 16)) >> 17]. *)
Definition newton_exact (x y : Z) : Z :=
  y * (196608 - x * (y * y) / 65536) / 131072.

(** The largest [x * y^2] for which [(x * y^2) >> 16] does not exceed
    [3 << 16]. *)
Definition newton_safe : Z := 12884967423.

(** The bound that one Newton update puts on [x * y^2]: [2^32] and about
    15 millionths of it. *)
Definition newton_bound : Z := 4295032831.

(** Steps 1 to 3 of [fast_rsqrt]: the estimate that enters the Newton
    iterations. *)
Definition rsqrt_estimate (x : Z) : option Z :=
  let exp := 31 - clz x in
  y <- table_get exp ;;
  interpolate x exp y.

(** What the analysis of the Newton iterations needs of the octave [e]:
    with [y0] the entry at [e] and [y_next] the value used for the next one,
    [2^(e+1) * y0^2] stays in the safe range, [y0^2] fits 32 bits, and the
    first update of any estimate above [y_next] is at least 1. *)
Definition octave_ok (e : Z) : bool :=
  (e =? 0) ||
  match table_get e, interp_y_next e with
  | Some y0, Some y_next =>
      (2 ^ (e + 1) * (y0 * y0) <=? newton_safe)
      && (y0 <=? 46341)
      && (131072 <=? (y_next + 1) * (196608 - 2 ^ (e + 1) * (y0 * y0) / 65536))
  | _, _ => false
  end.

(** The estimate of step 3 as one integer formula of [x], the exponent
    [e], the entry [y0] and the next value [y_next]. *)
Definition estimate_formula (x e y0 y_next : Z) : Z :=
  y0 - (y0 - y_next) * ((x - 2 ^ e) * 65536 / 2 ^ e) / 65536.

Definition table_pair_ok (i j : Z) : bool :=
  if i <=? j then
    match table_get i, table_get j with
    | Some a, Some b => b <=? a
    | _, _ => false
    end
  else true.

(** A counter that fits 64 bits and never runs backwards. *)
Definition clock_ok (clock : nat -> Z) : Prop :=
  forall i, in_u64 (clock i) /\ clock i <= clock (S i).

(** What one record of the output holds: the result for [x] and the two
    words of the cycles elapsed between two reads of the counter. *)
Definition record_ok (clock : nat -> Z) (k k' : nat) (m : wmemory)
           (l x : Z) : Prop :=
  exists r s e,
    fast_rsqrt x = Some r /\ m l = r /\
    (k <= s)%nat /\ (s < e)%nat /\ (e <= k')%nat /\
    in_u32 (m (l + 4)) /\ in_u32 (m (l + 8)) /\
    m (l + 4) + 2 ^ 32 * m (l + 8) = clock e - clock s.

(** The estimate computed from its closed form, with the exponent taken
    as [log2 x]. *)
Definition est_val (x : Z) : Z :=
  let e := Z.log2 x in
  match table_get e, interp_y_next e with
  | Some y0, Some y_next => estimate_formula x e y0 y_next
  | _, _ => 0
  end.

(** [p] holds of the [n] integers from [u] on. *)
Fixpoint all_between (n : nat) (u : Z) (p : Z -> bool) : bool :=
  match n with
  | O => true
  | S n' => if p u then all_between n' (u + 1) p else false
  end.

(** A test that is enough for a lower bound on [fast_rsqrt] over all of
    [a .. b]: the estimate lies between its values at [b] and [a], which
    bounds the first update from below by [ulo]; every first update from
    [ulo] to the largest possible one is tried in the second update, taken
    at [b], and the result is put to the test [ok] with the lower end
    [a]. *)
Definition interval_ok (ok : Z -> Z -> bool) (a b : Z) : bool :=
  if (2 <=? a) && (a <=? b) && (b <? 2 ^ 32) then
    let ya := est_val a in
    let yb := est_val b in
    let qhi := b * (ya * ya) / 65536 in
    if (0 <=? yb) && (qhi <=? 196608) then
      let ulo := yb * (196608 - qhi) / 131072 in
      let umax := Z.sqrt (newton_bound / a) in
      all_between (Z.to_nat (umax - ulo + 1)) ulo
                  (fun u => ok a (newton_exact b u))
    else false
  else false.

(** The first of the widths [ws] for which the interval from [a] passes. *)
Fixpoint first_ok (ok : Z -> Z -> bool) (ws : list Z) (a hi : Z)
  : option Z :=
  match ws with
  | [] => None
  | w :: ws' =>
      let b := Z.min (a + w) hi in
      if interval_ok ok a b then Some b else first_ok ok ws' a hi
  end.

(** The widths tried after an interval of width [w]: twice as wide, then
    halving down to 0. *)
Definition widths (w : Z) : list Z :=
  map (fun k => Z.shiftr (2 * w + 2) k) (Zrange 36).

(** Cover [a .. hi] by intervals that pass; [w] is the width of the last
    interval. *)
Fixpoint cover (ok : Z -> Z -> bool) (fuel : nat) (a hi w : Z) : bool :=
  match fuel with
  | O => false
  | S fuel' =>
      if hi <? a then true
      else
        match first_ok ok (widths w) a hi with
        | Some b => cover ok fuel' (b + 1) hi (b - a)
        | None => false
        end
  end.

(** The two tests: [2^32 <= x * (r + 2)^2], which is
    [65536 / sqrt x <= r + 2], and [0.92^2 * 2^32 <= x * r^2], which is
    [0.92 * 65536 / sqrt x <= r]. *)
Definition within_two (x r : Z) : bool :=
  (0 <=? r) && (2 ^ 32 <=? x * ((r + 2) * (r + 2))).

Definition within_8_percent (x r : Z) : bool :=
  (0 <=? r) && (8464 * 2 ^ 32 <=? 10000 * (x * (r * r))).

(** Both tests at once, the second one below 25043780 only. *)
Definition accuracy_ok (x r : Z) : bool :=
  within_two x r && (within_8_percent x r || (25043780 <=? x)).

(** [fast_rsqrt (4^k)] against [2^(16-k)]. *)
Definition pow4_exact (k : Z) : bool :=
  match fast_rsqrt (4 ^ k) with
  | Some r => (r =? 2 ^ (16 - k)) && (4 ^ k * (r * r) =? 2 ^ 32)
  | None => false
  end.

(** Sample inputs: a memory with two letters at 20 and 21 and zero bytes
    elsewhere. *)
Definition sample_memory : memory :=
  fun a => if a =? 20 then Byte.x41 else if a =? 21 then Byte.x42 else Byte.x00.

(** A counter stopped at 5, and a memory of zero words. *)
Definition sample_clock : nat -> Z := fun _ => 5.
Definition sample_words : wmemory := fun _ => 0.

(** A call that leaves the state as it found it and whose result is [v]
    whatever the memory and the counter are. *)
Definition pure_call {A : Type} (m : comp A) (v : option A) : Prop :=
  forall w, w_table w = rsqrt_table -> m w = local v w.

(** Two states of one run: the table as initialised, different memories
    and counter positions. *)
Definition sample_world_1 : world := World rsqrt_table sample_words 0.
Definition sample_world_2 : world :=
  World rsqrt_table (wstore sample_words 4 32768) 6.

(** * Properties *)

(** ** Machine-integer facts *)

Lemma modulus32_eq : modulus32 = 4294967296.
Proof. reflexivity. Qed.

Lemma modulus64_eq : modulus64 = 18446744073709551616.
Proof. reflexivity. Qed.

Lemma u32_small (z : Z) : in_u32 z -> u32 z = z.
Proof. intros H. apply Z.mod_small. exact H. Qed.

Lemma u64_small (z : Z) : in_u64 z -> u64 z = z.
Proof. intros H. apply Z.mod_small. exact H. Qed.

Lemma u32_range (z : Z) : in_u32 (u32 z).
Proof. apply Z.mod_pos_bound. reflexivity. Qed.

Lemma pow2_pos (n : Z) : 0 <= n -> 0 < 2 ^ n.
Proof. intros. apply Z.pow_pos_nonneg; lia. Qed.

Lemma pow2_lt_32 (n : Z) : 0 <= n < 32 -> 2 ^ n < modulus32.
Proof. intros. apply Z.pow_lt_mono_r; lia. Qed.

Lemma shl_one_32 (i : Z) : 0 <= i < 32 -> u32 (Z.shiftl 1 i) = 2 ^ i.
Proof.
  intros Hi. rewrite Z.shiftl_mul_pow2, Z.mul_1_l by lia.
  apply u32_small. split; [apply Z.lt_le_incl, pow2_pos | apply pow2_lt_32]; lia.
Qed.

(** The bit of [b] selected by the mask [2^i]. *)
Lemma land_pow2 (b i : Z) :
  0 <= i -> Z.land b (2 ^ i) = if Z.testbit b i then 2 ^ i else 0.
Proof.
  intros Hi. apply Z.bits_inj'. intros n Hn.
  rewrite Z.land_spec, Z.pow2_bits_eqb by lia.
  destruct (Z.eqb_spec i n) as [->|Hne].
  - destruct (Z.testbit b n); simpl.
    + rewrite Z.pow2_bits_true; lia.
    + apply eq_sym, Z.bits_0.
  - rewrite andb_false_r.
    destruct (Z.testbit b i).
    + rewrite Z.pow2_bits_false; lia.
    + apply eq_sym, Z.bits_0.
Qed.

(** Adding one more bit to the low part of [b]. *)
Lemma mod_pow2_succ (b i : Z) :
  0 <= i ->
  b mod 2 ^ (i + 1) = b mod 2 ^ i + (if Z.testbit b i then 2 ^ i else 0).
Proof.
  intros Hi.
  pose proof (pow2_pos i Hi) as Hp.
  rewrite Z.pow_add_r, Z.pow_1_r by lia.
  rewrite Z.rem_mul_r by lia.
  rewrite <- (Z.testbit_spec' b i Hi).
  destruct (Z.testbit b i); simpl; lia.
Qed.

(** ** Loops *)

(** A loop of [n] iterations executes its body [n] times. *)
Lemma for_loop_counting {S : Type} (body : Z -> S -> S) (n : nat) (i : Z)
      (s : S) (c : nat) :
  for_loop n i (counting body) (s, c) = (for_loop n i body s, (c + n)%nat).
Proof.
  revert i s c. induction n as [|n IH]; intros i s c.
  - simpl. f_equal. lia.
  - cbn [for_loop]. unfold counting at 2. cbn [fst snd].
    rewrite IH. f_equal. lia.
Qed.

(** ** mul32 *)

Section Mul32.

Variables a b : Z.
Hypothesis Ha : in_u32 a.
Hypothesis Hb : in_u32 b.

Lemma mul32_body_partial (i : Z) :
  0 <= i < 32 ->
  mul32_body a b i (mul32_partial a b i) = mul32_partial a b (i + 1).
Proof using Ha.
  intros Hi. unfold mul32_body, mul32_partial.
  rewrite shl_one_32, land_pow2, mod_pow2_succ by lia.
  pose proof (pow2_pos i (proj1 Hi)) as Hp.
  pose proof (Z.mod_pos_bound b (2 ^ i) Hp) as Hm.
  assert (Hle : 2 ^ i <= 2 ^ 31) by (apply Z.pow_le_mono_r; lia).
  change (2 ^ 31) with 2147483648 in Hle.
  unfold in_u32 in Ha. rewrite modulus32_eq in Ha.
  destruct (Z.testbit b i).
  - destruct (Z.eqb_spec (2 ^ i) 0) as [E|_]; [lia|].
    rewrite Z.shiftl_mul_pow2 by lia.
    rewrite (u64_small (a * 2 ^ i))
      by (unfold in_u64; rewrite modulus64_eq; nia).
    rewrite u64_small by (unfold in_u64; rewrite modulus64_eq; nia).
    ring.
  - rewrite Z.eqb_refl. f_equal. lia.
Qed.

Lemma mul32_loop (n : nat) (i : Z) :
  0 <= i -> i + Z.of_nat n <= 32 ->
  for_loop n i (mul32_body a b) (mul32_partial a b i)
  = mul32_partial a b (i + Z.of_nat n).
Proof using Ha.
  revert i. induction n as [|n IH]; intros i Hi Hn.
  - simpl. f_equal. lia.
  - cbn [for_loop]. rewrite mul32_body_partial by lia.
    rewrite IH by lia. f_equal. lia.
Qed.

Lemma mul32_exact : mul32 a b = a * b.
Proof using Ha Hb.
  unfold mul32.
  replace 0 with (mul32_partial a b 0) at 2
    by (unfold mul32_partial; rewrite Z.mod_1_r; ring).
  rewrite mul32_loop by (simpl; lia).
  unfold mul32_partial. simpl Z.add.
  f_equal. apply Z.mod_small. exact Hb.
Qed.

End Mul32.

(** ** clz *)

Lemma high_mask_bits (k i : Z) :
  0 <= k <= 32 -> 0 <= i ->
  Z.testbit (high_mask k) i = (k <=? i) && (i <? 32).
Proof.
  intros Hk Hi. unfold high_mask.
  rewrite Z.shiftl_spec by lia.
  destruct (Z.leb_spec k i) as [Hki|Hki].
  - rewrite Z.testbit_ones_nonneg by lia.
    destruct (Z.ltb_spec (i - k) (32 - k)), (Z.ltb_spec i 32); simpl; lia.
  - apply Z.testbit_neg_r. lia.
Qed.

Lemma testbit_above (x k i : Z) :
  0 <= x < 2 ^ k -> k <= i -> Z.testbit x i = false.
Proof.
  intros Hx Hki.
  destruct (Z.eq_dec x 0) as [->|Hx0]; [apply Z.bits_0|].
  apply Z.bits_above_log2; [lia|].
  assert (0 <= k).
  { destruct (Z.le_gt_cases 0 k); [assumption|].
    rewrite Z.pow_neg_r in Hx; lia. }
  assert (Z.log2 x < k) by (apply Z.log2_lt_pow2; lia). lia.
Qed.

(** A value below [2^32] has no bit under the mask exactly when it is
    below [2^k]. *)
Lemma land_high_mask (x k : Z) :
  in_u32 x -> 0 <= k <= 32 ->
  (Z.land x (high_mask k) =? 0) = (x <? 2 ^ k).
Proof.
  intros Hx Hk.
  destruct (Z.ltb_spec x (2 ^ k)) as [Hlt|Hge].
  - apply Z.eqb_eq. apply Z.bits_inj'. intros i Hi.
    rewrite Z.land_spec, Z.bits_0, high_mask_bits by lia.
    destruct (Z.leb_spec k i) as [Hki|Hki]; simpl.
    + rewrite (testbit_above x k i); [reflexivity| |lia].
      destruct Hx. lia.
    + apply andb_false_r.
  - apply Z.eqb_neq. intros E.
    pose proof (pow2_pos k (proj1 Hk)) as Hp.
    assert (Hpos : 0 < x) by lia.
    assert (Hlo : k <= Z.log2 x) by (apply Z.log2_le_pow2; lia).
    assert (Hhi : Z.log2 x < 32).
    { apply Z.log2_lt_pow2; [lia|]. apply Hx. }
    pose proof (Z.bit_log2 x Hpos) as Hbit.
    assert (Hb : Z.testbit (Z.land x (high_mask k)) (Z.log2 x) = true).
    { rewrite Z.land_spec, Hbit, high_mask_bits by lia.
      destruct (Z.leb_spec k (Z.log2 x)), (Z.ltb_spec (Z.log2 x) 32);
        simpl; lia. }
    rewrite E, Z.bits_0 in Hb. discriminate.
Qed.

(** One narrowing step, on a state whose value is below [2^32]. *)
Lemma clz_step_spec (j k n x : Z) :
  in_u32 x -> 0 <= j -> 0 <= k -> j + k = 32 ->
  clz_step (high_mask j) k (n, x)
  = if x <? 2 ^ j then (n + k, x * 2 ^ k) else (n, x).
Proof.
  intros Hx Hj Hk Hjk. unfold clz_step.
  rewrite land_high_mask by (assumption || lia).
  destruct (Z.ltb_spec x (2 ^ j)) as [Hlt|Hge]; [|reflexivity].
  rewrite Z.shiftl_mul_pow2 by lia.
  rewrite u32_small; [reflexivity|].
  unfold in_u32 in *. unfold modulus32.
  replace (2 ^ 32) with (2 ^ j * 2 ^ k)
    by (rewrite <- Z.pow_add_r by lia; f_equal; lia).
  pose proof (pow2_pos k Hk). nia.
Qed.

Ltac solve_u32 :=
  first [ lia | unfold in_u32; rewrite modulus32_eq; lia ].

Ltac clz_narrow j k :=
  rewrite (clz_step_spec j k) by solve_u32;
  match goal with
  | |- context [Z.ltb ?u ?v] => destruct (Z.ltb_spec u v)
  end.

(** The count returned by [clz] brackets its argument between two
    consecutive powers of two. *)
Lemma clz_bracket (x : Z) :
  in_u32 x -> x <> 0 ->
  0 <= clz x <= 31 /\ 2 ^ (31 - clz x) <= x < 2 ^ (32 - clz x).
Proof.
  intros Hx Hx0. unfold clz.
  destruct (Z.eqb_spec x 0) as [E|_]; [contradiction|].
  unfold in_u32 in Hx. rewrite modulus32_eq in Hx.
  change 0xFFFF0000 with (high_mask 16).
  change 0xFF000000 with (high_mask 24).
  change 0xF0000000 with (high_mask 28).
  change 0xC0000000 with (high_mask 30).
  change 0x80000000 with (high_mask 31).
  clz_narrow 16 16; clz_narrow 24 8; clz_narrow 28 4; clz_narrow 30 2;
    rewrite land_high_mask by solve_u32;
    match goal with
    | |- context [Z.ltb ?u ?v] => destruct (Z.ltb_spec u v)
    end; simpl Z.add; simpl Z.sub; lia.
Qed.

Lemma clz_log2 (x : Z) :
  in_u32 x -> x <> 0 -> clz x = 31 - Z.log2 x.
Proof.
  intros Hx Hx0.
  destruct (clz_bracket x Hx Hx0) as [Hc Hb].
  assert (E : Z.log2 x = 31 - clz x).
  { apply Z.log2_unique; [lia|].
    replace (Z.succ (31 - clz x)) with (32 - clz x) by lia. exact Hb. }
  lia.
Qed.

Lemma leading_zeros_from_spec (n : nat) (x : Z) :
  0 <= x < 2 ^ Z.of_nat n ->
  leading_zeros_from n x
  = if x =? 0 then Z.of_nat n else Z.of_nat n - 1 - Z.log2 x.
Proof.
  induction n as [|n IH]; intros Hx.
  - simpl in *. assert (x = 0) by lia. subst x. reflexivity.
  - cbn [leading_zeros_from].
    rewrite Nat2Z.inj_succ in *.
    destruct (Z.lt_ge_cases x (2 ^ Z.of_nat n)) as [Hlt|Hge].
    + rewrite (testbit_above x (Z.of_nat n)) by lia.
      rewrite IH by lia.
      destruct (Z.eqb_spec x 0); lia.
    + pose proof (pow2_pos (Z.of_nat n) (Nat2Z.is_nonneg n)) as Hp.
      assert (E : Z.log2 x = Z.of_nat n).
      { apply Z.log2_unique; [lia|].
        unfold Z.succ in Hx. lia. }
      rewrite <- E at 1. rewrite Z.bit_log2 by lia.
      destruct (Z.eqb_spec x 0); lia.
Qed.

Lemma clz_leading_zeros (x : Z) : in_u32 x -> clz x = leading_zeros x.
Proof.
  intros Hx. unfold leading_zeros.
  rewrite leading_zeros_from_spec by exact Hx.
  destruct (Z.eqb_spec x 0) as [->|Hx0]; [reflexivity|].
  rewrite clz_log2 by assumption. reflexivity.
Qed.

(** ** Checking a decidable property on an initial segment of [Z] *)

Lemma Zrange_forallb (P : Z -> bool) (n : nat) :
  forallb P (Zrange n) = true ->
  forall z, 0 <= z < Z.of_nat n -> P z = true.
Proof.
  intros H z Hz. rewrite forallb_forall in H. apply H.
  unfold Zrange. apply in_map_iff. exists (Z.to_nat z). split.
  - apply Z2Nat.id. lia.
  - apply in_seq. lia.
Qed.

(** ** The table *)

Lemma rsqrt_table_length : length rsqrt_table = 32%nat.
Proof. reflexivity. Qed.

Lemma table_get_none (e : Z) : e < 0 \/ 32 <= e -> table_get e = None.
Proof.
  intros H. unfold table_get.
  destruct (Z.ltb_spec e 0); [reflexivity|].
  apply nth_error_None. rewrite rsqrt_table_length. lia.
Qed.

Lemma table_step (e : Z) :
  0 <= e <= 31 ->
  exists y y_next,
    table_get e = Some y /\ interp_y_next e = Some y_next /\
    0 <= y_next < y /\ y <= 65536.
Proof.
  intros He.
  assert (H : table_step_ok e = true).
  { apply (Zrange_forallb table_step_ok 32); [vm_compute; reflexivity|lia]. }
  unfold table_step_ok in H.
  destruct (table_get e) as [y|]; [|discriminate].
  destruct (interp_y_next e) as [y_next|]; [|discriminate].
  exists y, y_next.
  apply andb_prop in H. destruct H as [H H3].
  apply andb_prop in H. destruct H as [H1 H2].
  apply Z.leb_le in H1, H3. apply Z.ltb_lt in H2.
  repeat split; assumption.
Qed.

(** The table is strictly decreasing. *)
Lemma rsqrt_table_decreasing (e a b : Z) :
  table_get e = Some a -> table_get (e + 1) = Some b -> b < a.
Proof.
  intros Ha Hb.
  assert (He : 0 <= e < 31).
  { destruct (Z.lt_ge_cases e 0) as [Hn|Hn].
    - rewrite table_get_none in Ha by lia. discriminate.
    - destruct (Z.lt_ge_cases e 31); [lia|].
      rewrite table_get_none in Hb by lia. discriminate. }
  destruct (table_step e) as (y & yn & Hy & Hyn & Hlt & _); [lia|].
  unfold interp_y_next in Hyn.
  rewrite (proj2 (Z.ltb_lt e 31)) in Hyn by lia.
  assert (y = a) by congruence. assert (yn = b) by congruence. lia.
Qed.

(** ** The pieces of fast_rsqrt *)

Lemma shl_some (w x n : Z) :
  0 <= n < w -> 0 <= x -> x * 2 ^ n < 2 ^ w ->
  shl w x n = Some (x * 2 ^ n).
Proof.
  intros Hn Hx Hlt. unfold shl.
  destruct (Z.leb_spec 0 n); [|lia].
  destruct (Z.ltb_spec n w); [|lia]. simpl.
  rewrite Z.shiftl_mul_pow2 by lia.
  rewrite Z.mod_small; [reflexivity|].
  pose proof (pow2_pos n (proj1 Hn)). nia.
Qed.

Lemma shr_some (w x n : Z) :
  0 <= n < w -> shr w x n = Some (x / 2 ^ n).
Proof.
  intros Hn. unfold shr.
  destruct (Z.leb_spec 0 n); [|lia].
  destruct (Z.ltb_spec n w); [|lia]. simpl.
  rewrite Z.shiftr_div_pow2 by lia. reflexivity.
Qed.

(** The exponent computed in step 1. *)
Lemma exp_bracket (x : Z) :
  in_u32 x -> 1 < x ->
  1 <= 31 - clz x <= 31 /\
  2 ^ (31 - clz x) <= x < 2 ^ (31 - clz x + 1).
Proof.
  intros Hx Hgt.
  destruct (clz_bracket x Hx) as [Hc Hb]; [lia|].
  replace (31 - clz x + 1) with (32 - clz x) by lia.
  split; [|exact Hb].
  destruct (Z.eq_dec (clz x) 31) as [E|]; [|lia].
  rewrite E in Hb. simpl in Hb. lia.
Qed.

Lemma pow2_exp_bound (e : Z) : 0 <= e <= 31 -> 1 <= 2 ^ e <= 2147483648.
Proof.
  intros He. change 2147483648 with (2 ^ 31).
  split.
  - pose proof (pow2_pos e (proj1 He)). lia.
  - apply Z.pow_le_mono_r; lia.
Qed.

Lemma interp_frac_spec (x e : Z) :
  0 <= e <= 31 -> 2 ^ e <= x < 2 ^ (e + 1) ->
  interp_frac x e = Some ((x - 2 ^ e) * 65536 / 2 ^ e) /\
  0 <= (x - 2 ^ e) * 65536 / 2 ^ e < 65536.
Proof.
  intros He Hx.
  pose proof (pow2_exp_bound e He) as Hp.
  rewrite Z.pow_add_r, Z.pow_1_r in Hx by lia.
  assert (Hq : 0 <= (x - 2 ^ e) * 65536 / 2 ^ e < 65536).
  { split.
    - apply Z.div_pos; lia.
    - apply Z.div_lt_upper_bound; lia. }
  split; [|exact Hq].
  unfold interp_frac.
  rewrite (shl_some 64 1 e) by (change (2 ^ 64) with modulus64;
                                 rewrite ?modulus64_eq; lia).
  cbn [bind]. rewrite Z.mul_1_l.
  rewrite u64_small by (unfold in_u64; rewrite modulus64_eq; lia).
  rewrite (shl_some 64 (x - 2 ^ e) 16)
    by (change (2 ^ 64) with modulus64; change (2 ^ 16) with 65536;
        rewrite ?modulus64_eq; lia).
  cbn [bind]. change (2 ^ 16) with 65536.
  rewrite shr_some by lia. cbn [bind].
  rewrite u32_small by (unfold in_u32; rewrite modulus32_eq; lia).
  reflexivity.
Qed.

Lemma interp_correction_spec (delta frac : Z) :
  0 < delta <= 65536 -> 0 <= frac < 65536 ->
  interp_correction delta frac = delta * frac / 65536 /\
  0 <= delta * frac / 65536 < delta.
Proof.
  intros Hd Hf.
  assert (Hq : 0 <= delta * frac / 65536 < delta).
  { split.
    - apply Z.div_pos; nia.
    - apply Z.div_lt_upper_bound; nia. }
  split; [|exact Hq].
  unfold interp_correction.
  rewrite mul32_exact by (unfold in_u32; rewrite modulus32_eq; lia).
  rewrite Z.shiftr_div_pow2 by lia. change (2 ^ 16) with 65536.
  apply u32_small. unfold in_u32. rewrite modulus32_eq. lia.
Qed.

Lemma shl_one_some (e : Z) : 0 <= e <= 31 -> shl 32 1 e = Some (2 ^ e).
Proof.
  intros He. pose proof (pow2_exp_bound e He).
  rewrite shl_some by (change (2 ^ 32) with modulus32;
                       rewrite ?modulus32_eq; lia).
  rewrite Z.mul_1_l. reflexivity.
Qed.

(** On an exact power of two the guard of step 3 is false. *)
Lemma interpolate_pow2 (e y : Z) :
  0 <= e <= 31 -> interpolate (2 ^ e) e y = Some y.
Proof.
  intros He. unfold interpolate.
  rewrite shl_one_some by assumption. cbn [bind].
  rewrite Z.ltb_irrefl. reflexivity.
Qed.

(** Above a power of two the correction is applied, and every local of
    step 3 is the exact integer the formula of the source denotes. *)
Lemma interpolate_above (x e y y_next : Z) :
  0 <= e <= 31 -> 2 ^ e < x < 2 ^ (e + 1) ->
  table_get e = Some y -> interp_y_next e = Some y_next ->
  let frac := (x - 2 ^ e) * 65536 / 2 ^ e in
  let corr := (y - y_next) * frac / 65536 in
  interp_frac x e = Some frac /\
  0 <= frac < 65536 /\
  interp_delta y y_next = y - y_next /\
  interp_correction (interp_delta y y_next) frac = corr /\
  0 <= corr < y - y_next /\
  interpolate x e y = Some (y - corr).
Proof.
  intros He Hx Hy Hyn frac corr.
  destruct (table_step e He) as (y' & yn' & Hy' & Hyn' & Hlt & Hle).
  assert (y' = y) by congruence. assert (yn' = y_next) by congruence.
  subst y' yn'.
  destruct (interp_frac_spec x e He) as [Hf Hfb]; [lia|].
  fold frac in Hf, Hfb.
  assert (Hd : interp_delta y y_next = y - y_next).
  { apply u32_small. unfold in_u32. rewrite modulus32_eq. lia. }
  destruct (interp_correction_spec (y - y_next) frac) as [Hc Hcb];
    [lia|lia|].
  fold corr in Hc, Hcb.
  repeat split; try assumption; try lia.
  - rewrite Hd. exact Hc.
  - unfold interpolate.
    rewrite shl_one_some by assumption. cbn [bind].
    rewrite (proj2 (Z.ltb_lt (2 ^ e) x)) by lia.
    rewrite Hyn. cbn [bind]. rewrite Hf. cbn [bind].
    rewrite Hd, Hc. f_equal.
    apply u32_small. unfold in_u32. rewrite modulus32_eq. lia.
Qed.

Lemma newton_loop_range (x y : Z) :
  in_u32 (for_loop 2 0 (fun _ y => newton_step x y) y).
Proof. cbn [for_loop]. unfold newton_step at 1. apply u32_range. Qed.

Lemma clz_pow2 (e : Z) : 0 <= e <= 31 -> 31 - clz (2 ^ e) = e.
Proof.
  intros He. pose proof (pow2_exp_bound e He) as Hp.
  rewrite clz_log2 by (unfold in_u32; rewrite ?modulus32_eq; lia).
  rewrite Z.log2_pow2 by lia. lia.
Qed.

(** ** Rounding the real reciprocal square root *)

Section Squares.
Local Open Scope R_scope.

Lemma sq_le_iff (u v : R) : 0 <= u -> 0 <= v -> (u <= v <-> u * u <= v * v).
Proof. intros Hu Hv. split; intros H; nra. Qed.

(** With [s = sqrt p], comparing [a / 2] with [65536 / s] is comparing
    [a^2 * p] with [2^34]. *)
Lemma half_le_rsqrt (a p : R) :
  0 <= a -> 0 < p ->
  (a / 2 <= 65536 / sqrt p <-> a * a * p <= 17179869184).
Proof.
  intros Ha Hp.
  pose proof (sqrt_lt_R0 p Hp) as Hs.
  pose proof (sqrt_sqrt p (Rlt_le _ _ Hp)) as Hss.
  set (s := sqrt p) in *.
  assert (Hr : 65536 / s * s = 65536) by (field; lra).
  set (r := 65536 / s) in *.
  rewrite <- Hss.
  replace (a * a * (s * s)) with ((a * s) * (a * s)) by ring.
  replace 17179869184 with (131072 * 131072) by lra.
  rewrite <- sq_le_iff by nra.
  split; intros H; nra.
Qed.

Lemma rsqrt_lt_half (a p : R) :
  0 <= a -> 0 < p ->
  (65536 / sqrt p < a / 2 <-> 17179869184 < a * a * p).
Proof.
  intros Ha Hp.
  pose proof (half_le_rsqrt a p Ha Hp) as H.
  split; intros H1.
  - apply Rnot_le_lt. intros H2. apply H in H2. lra.
  - apply Rnot_le_lt. intros H2. apply H in H2. lra.
Qed.
End Squares.

Lemma rounds_to_rsqrt_spec (e n : Z) :
  0 <= e -> 1 <= n ->
  rounds_to (rsqrt_q16 e) n <-> rounds_to_rsqrt e n = true.
Proof.
  intros He Hn.
  assert (Hp : (0 < IZR (2 ^ e))%R).
  { apply IZR_lt. apply Z.pow_pos_nonneg; lia. }
  unfold rounds_to, rsqrt_q16, rounds_to_rsqrt.
  rewrite Bool.andb_true_iff, Z.leb_le, Z.ltb_lt.
  replace (IZR n - / 2)%R with (IZR (2 * n - 1) / 2)%R
    by (rewrite minus_IZR, mult_IZR; simpl; field).
  replace (IZR n + / 2)%R with (IZR (2 * n + 1) / 2)%R
    by (rewrite plus_IZR, mult_IZR; simpl; field).
  rewrite half_le_rsqrt by (try apply IZR_le; try assumption; lia).
  rewrite rsqrt_lt_half by (try apply IZR_le; try assumption; lia).
  change (2 ^ 34) with 17179869184.
  rewrite !Z.pow_2_r.
  rewrite <- !mult_IZR.
  split; intros [H1 H2]; split.
  - apply le_IZR. exact H1.
  - apply lt_IZR. exact H2.
  - apply IZR_le. exact H1.
  - apply IZR_lt. exact H2.
Qed.

(** Every entry but the one at 19 is [65536 / sqrt (2^e)] rounded to the
    nearest integer. *)
Lemma rsqrt_table_rounded (e : Z) :
  0 <= e <= 31 -> e <> 19 ->
  exists t, table_get e = Some t /\ rounds_to (rsqrt_q16 e) t.
Proof.
  intros He Hne.
  assert (H : ((e =? 19) || table_entry_rounded e = true)%bool).
  { apply (Zrange_forallb (fun e => (e =? 19) || table_entry_rounded e)%bool 32);
      [vm_compute; reflexivity|lia]. }
  apply orb_prop in H. destruct H as [H|H]; [apply Z.eqb_eq in H; lia|].
  unfold table_entry_rounded in H.
  destruct (table_get e) as [t|]; [|discriminate].
  apply andb_prop in H. destruct H as [Ht Hr]. apply Z.leb_le in Ht.
  exists t. split; [reflexivity|].
  apply rounds_to_rsqrt_spec; [lia|assumption|assumption].
Qed.

(** The other parts of C6: the table has 32 entries and decreases
    strictly. *)
Lemma rsqrt_table_shape :
  length rsqrt_table = 32%nat /\
  forall e a b, table_get e = Some a -> table_get (e + 1) = Some b -> b < a.
Proof. split; [reflexivity|exact rsqrt_table_decreasing]. Qed.

(** * The claims *)

(** C1, as stated, fails: at [e = 7] the table holds 5793 and
    [fast_rsqrt (2^7)] is 5792. *)
Lemma fast_rsqrt_pow2_not_table :
  0 <= 7 <= 31 /\
  table_get 7 = Some 5793 /\ fast_rsqrt (2 ^ 7) = Some 5792 /\
  fast_rsqrt (2 ^ 7) <> table_get 7.
Proof.
  split; [lia|]. split; [reflexivity|]. split; [vm_compute; reflexivity|].
  vm_compute. discriminate.
Qed.

(** C1, amended: for every exponent [e] in [0, 31], [2^e] selects the
    table entry [rsqrt_table[e]] and the interpolation correction is
    skipped; [fast_rsqrt (2^e)] is that entry, except at [e] = 7, 23, 27
    and 29, where the two Newton iterations lower it by exactly 1. *)
Theorem fast_rsqrt_pow2 (e : Z) :
  0 <= e <= 31 ->
  exists t,
    31 - clz (2 ^ e) = e /\
    table_get e = Some t /\
    interpolate (2 ^ e) e t = Some t /\
    (e = 7 \/ e = 23 \/ e = 27 \/ e = 29 ->
     fast_rsqrt (2 ^ e) = Some (t - 1)) /\
    (e <> 7 -> e <> 23 -> e <> 27 -> e <> 29 ->
     fast_rsqrt (2 ^ e) = Some t).
Proof.
  intros He.
  assert (H : pow2_result_ok e = true).
  { apply (Zrange_forallb pow2_result_ok 32); [vm_compute; reflexivity|lia]. }
  unfold pow2_result_ok in H.
  destruct (table_get e) as [t|]; [|discriminate].
  destruct (fast_rsqrt (2 ^ e)) as [y|]; [|discriminate].
  apply Z.eqb_eq in H.
  exists t.
  split; [apply clz_pow2; assumption|].
  split; [reflexivity|].
  split; [apply interpolate_pow2; assumption|].
  split.
  - intros Hl.
    assert (Hn : newton_lowers e = true)
      by (destruct Hl as [E|[E|[E|E]]]; rewrite E; reflexivity).
    rewrite Hn in H. congruence.
  - intros H7 H23 H27 H29.
    assert (Hn : newton_lowers e = false).
    { unfold newton_lowers. cbn [existsb].
      rewrite !(proj2 (Z.eqb_neq _ _)) by assumption. reflexivity. }
    rewrite Hn in H. congruence.
Qed.

Lemma fast_rsqrt_pow2_at_7 :
  exists t,
    31 - clz (2 ^ 7) = 7 /\
    table_get 7 = Some t /\
    interpolate (2 ^ 7) 7 t = Some t /\
    (7 = 7 \/ 7 = 23 \/ 7 = 27 \/ 7 = 29 ->
     fast_rsqrt (2 ^ 7) = Some (t - 1)) /\
    (7 <> 7 -> 7 <> 23 -> 7 <> 27 -> 7 <> 29 ->
     fast_rsqrt (2 ^ 7) = Some t).
Proof.
  assert (H : 0 <= 7 <= 31) by lia.
  exact (fast_rsqrt_pow2 7 H).
Defined.

(** C2: for all unsigned 32-bit [a] and [b], [mul32 a b] is the exact
    mathematical product [a * b]; the product fits the 64-bit result, so
    nothing is truncated. *)
Theorem mul32_correct (a b : Z) :
  in_u32 a -> in_u32 b -> mul32 a b = a * b /\ in_u64 (mul32 a b).
Proof.
  intros Ha Hb. rewrite mul32_exact by assumption.
  split; [reflexivity|].
  unfold in_u32, in_u64 in *. rewrite modulus64_eq.
  rewrite modulus32_eq in *. nia.
Qed.

Lemma mul32_correct_max :
  in_u32 0xFFFFFFFF /\
  mul32 0xFFFFFFFF 0xFFFFFFFF = 0xFFFFFFFF * 0xFFFFFFFF /\
  in_u64 (mul32 0xFFFFFFFF 0xFFFFFFFF).
Proof.
  assert (H : in_u32 0xFFFFFFFF) by (unfold in_u32; rewrite modulus32_eq; lia).
  split; [exact H|].
  exact (mul32_correct 0xFFFFFFFF 0xFFFFFFFF H H).
Defined.

Example mul32_zero_zero : mul32 0 0 = 0.
Proof. reflexivity. Qed.

Example mul32_max_max : mul32 0xFFFFFFFF 0xFFFFFFFF = 0xFFFFFFFE00000001.
Proof. vm_compute. reflexivity. Qed.

(** C3: [clz 0] is 32; for every nonzero unsigned 32-bit [x], [clz x] is
    the number of leading zero bits of [x] in 32 bits, which is 31 minus the
    position of the highest set bit (bit [31 - clz x] is set and no bit
    above it is), and lies between 0 and 31; in particular
    [clz 0x80000000 = 0] and [clz 1 = 31]. *)
Theorem clz_correct (x : Z) :
  in_u32 x -> x <> 0 ->
  clz 0 = 32 /\ clz 0x80000000 = 0 /\ clz 1 = 31 /\
  clz x = leading_zeros x /\
  clz x = 31 - Z.log2 x /\
  Z.testbit x (31 - clz x) = true /\
  (forall i, 31 - clz x < i -> Z.testbit x i = false) /\
  0 <= clz x <= 31.
Proof.
  intros Hx Hx0.
  assert (Hpos : 0 < x) by (destruct Hx; lia).
  pose proof (clz_log2 x Hx Hx0) as Hl.
  split; [reflexivity|]. split; [reflexivity|]. split; [reflexivity|].
  split; [apply clz_leading_zeros; assumption|].
  split; [exact Hl|].
  split; [|split].
  - replace (31 - clz x) with (Z.log2 x) by lia.
    apply Z.bit_log2. exact Hpos.
  - intros i Hi. apply Z.bits_above_log2; lia.
  - apply clz_bracket; assumption.
Qed.

Lemma clz_correct_100 :
  clz 100 = leading_zeros 100 /\ clz 100 = 31 - Z.log2 100 /\
  Z.testbit 100 (31 - clz 100) = true /\
  (forall i, 31 - clz 100 < i -> Z.testbit 100 i = false) /\
  0 <= clz 100 <= 31.
Proof.
  assert (H : in_u32 100) by (unfold in_u32; rewrite modulus32_eq; lia).
  assert (H0 : 100 <> 0) by lia.
  exact (proj2 (proj2 (proj2 (clz_correct 100 H H0)))).
Defined.

(** C4: [fast_rsqrt 0] is the sentinel [0xFFFFFFFF] and [fast_rsqrt 1] is
    [65536]; both are returned by the two tests that open the function. *)
Theorem fast_rsqrt_special_cases :
  fast_rsqrt 0 = Some 0xFFFFFFFF /\ fast_rsqrt 1 = Some 65536.
Proof. split; reflexivity. Qed.

(** C5: [fast_rsqrt 0xFFFFFFFF] is a small nonzero finite value: it is 1,
    which is above 0 and is not the sentinel [0xFFFFFFFF]. *)
Theorem fast_rsqrt_max_input :
  exists y, fast_rsqrt 0xFFFFFFFF = Some y /\
            0 < y /\ y <> 0xFFFFFFFF /\ y = 1.
Proof.
  exists 1. split; [vm_compute; reflexivity|].
  repeat split; lia.
Qed.

(** C6 at [e = 19]: the table holds 90, and [65536 / sqrt (2^19)], which
    is about 90.51, rounds to 91 and not to 90. *)
Theorem rsqrt_table_entry_19 :
  table_get 19 = Some 90 /\
  rounds_to (rsqrt_q16 19) 91 /\
  ~ rounds_to (rsqrt_q16 19) 90.
Proof.
  split; [reflexivity|]. split.
  - apply rounds_to_rsqrt_spec; [lia|lia|vm_compute; reflexivity].
  - intros H. apply rounds_to_rsqrt_spec in H; [|lia|lia].
    vm_compute in H. discriminate.
Qed.

(** C7, as stated, fails: [2^29 < 2^30], and [fast_rsqrt] is 2 at both. *)
Lemma fast_rsqrt_pow2_not_strict :
  2 ^ 29 < 2 ^ 30 /\
  fast_rsqrt (2 ^ 29) = Some 2 /\ fast_rsqrt (2 ^ 30) = Some 2 /\
  ~ (2 > 2).
Proof.
  split; [reflexivity|].
  split; [vm_compute; reflexivity|].
  split; [vm_compute; reflexivity|]. lia.
Qed.

(** C7, amended: [fast_rsqrt] is non-increasing on powers of two: for
    [x1 = 2^e1 < x2 = 2^e2] with [e1], [e2] in [0, 31],
    [fast_rsqrt x1 >= fast_rsqrt x2], and the inequality is strict for every
    pair but [(2^29, 2^30)]. *)
Theorem fast_rsqrt_pow2_monotone (e1 e2 : Z) :
  0 <= e1 <= 31 -> 0 <= e2 <= 31 -> 2 ^ e1 < 2 ^ e2 ->
  exists y1 y2,
    fast_rsqrt (2 ^ e1) = Some y1 /\ fast_rsqrt (2 ^ e2) = Some y2 /\
    y1 >= y2 /\
    (~ (e1 = 29 /\ e2 = 30) -> y1 > y2).
Proof.
  intros H1 H2 Hlt.
  assert (He : e1 < e2) by (apply (Z.pow_lt_mono_r_iff 2); lia).
  assert (H : pow2_pair_ok e1 e2 = true).
  { apply (Zrange_forallb (pow2_pair_ok e1) 32); [|lia].
    apply (Zrange_forallb
             (fun a => forallb (pow2_pair_ok a) (Zrange 32)) 32);
      [vm_compute; reflexivity|lia]. }
  unfold pow2_pair_ok in H.
  rewrite (proj2 (Z.ltb_lt e1 e2) He) in H.
  destruct (fast_rsqrt (2 ^ e1)) as [y1|]; [|discriminate].
  destruct (fast_rsqrt (2 ^ e2)) as [y2|]; [|discriminate].
  exists y1, y2.
  apply andb_prop in H. destruct H as [Hle Hs].
  apply Z.leb_le in Hle.
  split; [reflexivity|]. split; [reflexivity|]. split; [lia|].
  intros Hn.
  apply orb_prop in Hs. destruct Hs as [Hs|Hs].
  - apply Z.ltb_lt in Hs. lia.
  - apply andb_prop in Hs. destruct Hs as [Ha Hb].
    apply Z.eqb_eq in Ha, Hb. tauto.
Qed.

Lemma fast_rsqrt_pow2_monotone_4_16 :
  exists y1 y2,
    fast_rsqrt (2 ^ 2) = Some y1 /\ fast_rsqrt (2 ^ 4) = Some y2 /\
    y1 >= y2 /\
    (~ (2 = 29 /\ 4 = 30) -> y1 > y2).
Proof.
  assert (H1 : 0 <= 2 <= 31) by lia.
  assert (H2 : 0 <= 4 <= 31) by lia.
  assert (Hlt : 2 ^ 2 < 2 ^ 4) by reflexivity.
  exact (fast_rsqrt_pow2_monotone 2 4 H1 H2 Hlt).
Defined.

(** C8: for every unsigned 32-bit [x], [fast_rsqrt x] returns a value, and
    the value is in [0, 0xFFFFFFFF]: no table access leaves the array and
    no shift count leaves the width of its operand, so nothing fails.  Every
    loop is bounded: the body of the loop of [mul32] runs exactly 32 times
    and the Newton step exactly 2 times ([clz] is five narrowing steps in
    a row, without a loop). *)
Theorem fast_rsqrt_total (x : Z) :
  in_u32 x ->
  (exists y, fast_rsqrt x = Some y /\ 0 <= y <= 0xFFFFFFFF) /\
  (forall a b,
      for_loop 32 0 (counting (mul32_body a b)) (0, 0%nat)
      = (mul32 a b, 32%nat)) /\
  (forall y,
      for_loop 2 0 (counting (fun _ y => newton_step x y)) (y, 0%nat)
      = (newton_step x (newton_step x y), 2%nat)).
Proof.
  intros Hx. split; [|split].
  2: { intros a b. rewrite for_loop_counting. unfold mul32. reflexivity. }
  2: { intros y. rewrite for_loop_counting. cbn [for_loop]. reflexivity. }
  unfold fast_rsqrt.
  destruct (Z.eqb_spec x 0) as [_|Hx0];
    [exists 0xFFFFFFFF; split; [reflexivity|lia]|].
  destruct (Z.eqb_spec x 1) as [_|Hx1];
    [exists 65536; split; [reflexivity|lia]|].
  assert (Hgt : 1 < x) by (destruct Hx; lia).
  destruct (exp_bracket x Hx Hgt) as [He Hb].
  set (exp := 31 - clz x) in *.
  destruct (table_step exp) as (y0 & y_next & Hy0 & Hyn & Hlt & Hle);
    [lia|].
  rewrite Hy0. cbn [bind].
  assert (Hi : exists y, interpolate x exp y0 = Some y).
  { destruct (Z.eq_dec x (2 ^ exp)) as [E|Hne].
    - exists y0. rewrite E at 1. apply interpolate_pow2. lia.
    - destruct (interpolate_above x exp y0 y_next)
        as (_ & _ & _ & _ & _ & Hi); try assumption; try lia.
      eexists. exact Hi. }
  destruct Hi as [y Hi]. rewrite Hi. cbn [bind].
  eexists. split; [reflexivity|].
  pose proof (newton_loop_range x y) as Hr.
  unfold in_u32 in Hr. rewrite modulus32_eq in Hr. lia.
Qed.

Lemma fast_rsqrt_total_100 :
  exists y, fast_rsqrt 100 = Some y /\ 0 <= y <= 0xFFFFFFFF.
Proof.
  assert (H : in_u32 100) by (unfold in_u32; rewrite modulus32_eq; lia).
  exact (proj1 (fast_rsqrt_total 100 H)).
Defined.

(** C10: for every input [x > 1] that is not a power of two, with
    [exp = 31 - clz x], the interpolation computes [frac < 65536], the
    correction lies in [0, delta) where [delta = rsqrt_table[exp] - y_next],
    and the estimate entering the Newton iterations satisfies
    [y_next < y <= rsqrt_table[exp]], where [y_next] is
    [rsqrt_table[exp+1]] below 31 and 0 at 31; the two unsigned
    subtractions give the exact integer differences, so neither wraps. *)
Theorem interpolation_bounds (x : Z) :
  in_u32 x -> 1 < x -> (forall e, 0 <= e -> x <> 2 ^ e) ->
  let exp := 31 - clz x in
  exists y0 y_next frac y,
    table_get exp = Some y0 /\
    interp_y_next exp = Some y_next /\
    (exp < 31 -> table_get (exp + 1) = Some y_next) /\
    (exp = 31 -> y_next = 0) /\
    interp_frac x exp = Some frac /\
    0 <= frac < 65536 /\
    y_next <= y0 /\
    interp_delta y0 y_next = y0 - y_next /\
    0 <= interp_correction (interp_delta y0 y_next) frac < y0 - y_next /\
    interp_correction (interp_delta y0 y_next) frac <= y0 /\
    interpolate x exp y0 = Some y /\
    y = y0 - interp_correction (interp_delta y0 y_next) frac /\
    y_next < y <= y0.
Proof.
  intros Hx Hgt Hnp exp.
  destruct (exp_bracket x Hx Hgt) as [He Hb]. fold exp in He, Hb.
  assert (Hne : x <> 2 ^ exp) by (apply Hnp; lia).
  destruct (table_step exp) as (y0 & y_next & Hy0 & Hyn & Hlt & Hle);
    [lia|].
  destruct (interpolate_above x exp y0 y_next)
    as (Hf & Hfb & Hd & Hc & Hcb & Hi); try assumption; try lia.
  exists y0, y_next, ((x - 2 ^ exp) * 65536 / 2 ^ exp),
    (y0 - (y0 - y_next) * ((x - 2 ^ exp) * 65536 / 2 ^ exp) / 65536).
  rewrite Hc.
  assert (Hnext : (exp < 31 -> table_get (exp + 1) = Some y_next) /\
                  (exp = 31 -> y_next = 0)).
  { unfold interp_y_next in Hyn.
    destruct (Z.ltb_spec exp 31).
    - split; [intros; exact Hyn | lia].
    - split; [lia | intros; congruence]. }
  destruct Hnext as [Hn1 Hn2].
  repeat split; try assumption; try lia.
Qed.

Lemma interpolation_bounds_100 :
  exists y0 y_next frac y,
    table_get 6 = Some y0 /\
    interp_y_next 6 = Some y_next /\
    (6 < 31 -> table_get (6 + 1) = Some y_next) /\
    (6 = 31 -> y_next = 0) /\
    interp_frac 100 6 = Some frac /\
    0 <= frac < 65536 /\
    y_next <= y0 /\
    interp_delta y0 y_next = y0 - y_next /\
    0 <= interp_correction (interp_delta y0 y_next) frac < y0 - y_next /\
    interp_correction (interp_delta y0 y_next) frac <= y0 /\
    interpolate 100 6 y0 = Some y /\
    y = y0 - interp_correction (interp_delta y0 y_next) frac /\
    y_next < y <= y0.
Proof.
  assert (H : in_u32 100) by (unfold in_u32; rewrite modulus32_eq; lia).
  assert (Hgt : 1 < 100) by lia.
  assert (Hnp : forall e, 0 <= e -> 100 <> 2 ^ e).
  { intros e He E.
    destruct (Z.lt_ge_cases e 7).
    - assert (2 ^ e <= 2 ^ 6) by (apply Z.pow_le_mono_r; lia).
      change (2 ^ 6) with 64 in *. lia.
    - assert (2 ^ 7 <= 2 ^ e) by (apply Z.pow_le_mono_r; lia).
      change (2 ^ 7) with 128 in *. lia. }
  exact (interpolation_bounds 100 H Hgt Hnp).
Defined.

(** * Further properties *)

(** ** The Newton iteration over the integers *)

Lemma sq_lt_u32 (y : Z) : 0 <= y -> y * y < 4294967296 -> y < 65536.
Proof. intros. nia. Qed.

Lemma newton_step_no_wrap (x y : Z) :
  in_u32 x -> 0 <= y -> y * y < modulus32 -> x * (y * y) <= newton_safe ->
  newton_step x y = newton_exact x y.
Proof.
  intros Hx Hy Hyy Hs. unfold newton_safe in Hs.
  unfold in_u32 in Hx. rewrite modulus32_eq in *.
  pose proof (sq_lt_u32 y Hy Hyy) as Hy16.
  unfold newton_step, newton_exact.
  assert (Hyy0 : 0 <= y * y) by nia.
  rewrite (mul32_exact y y) by (unfold in_u32; rewrite modulus32_eq; lia).
  rewrite (u32_small (y * y)) by (unfold in_u32; rewrite modulus32_eq; lia).
  rewrite (mul32_exact x (y * y))
    by (unfold in_u32; rewrite modulus32_eq; lia).
  rewrite !Z.shiftr_div_pow2 by lia.
  change (2 ^ 16) with 65536. change (2 ^ 17) with 131072.
  assert (Hq : 0 <= x * (y * y) / 65536 <= 196608).
  { split.
    - apply Z.div_pos; nia.
    - assert (x * (y * y) / 65536 < 196609)
        by (apply Z.div_lt_upper_bound; lia).
      lia. }
  rewrite (u32_small (x * (y * y) / 65536))
    by (unfold in_u32; rewrite modulus32_eq; lia).
  change (u32 (Z.shiftl 3 16)) with 196608.
  rewrite (u32_small (196608 - _))
    by (unfold in_u32; rewrite modulus32_eq; lia).
  rewrite mul32_exact by (unfold in_u32; rewrite modulus32_eq; lia).
  apply u32_small. unfold in_u32. rewrite modulus32_eq.
  split.
  - apply Z.div_pos; nia.
  - apply Z.div_lt_upper_bound; nia.
Qed.

Lemma newton_exact_nonneg (x y : Z) :
  0 <= y -> x * (y * y) <= newton_safe -> 0 <= newton_exact x y.
Proof.
  intros Hy Hs. unfold newton_safe in Hs. unfold newton_exact.
  apply Z.div_pos; [|lia].
  assert (x * (y * y) / 65536 < 196609)
    by (apply Z.div_lt_upper_bound; lia).
  nia.
Qed.

(** The cubic inequality behind the bound: [w (K - w)^2] is largest at
    [w = K / 3]. *)
Lemma cubic_max (K w : Z) :
  0 <= w <= K -> 27 * (w * ((K - w) * (K - w))) <= 4 * (K * K * K).
Proof.
  intros Hw.
  assert (E : 4 * (K * K * K) - 27 * (w * ((K - w) * (K - w)))
              = (K - 3 * w) * (K - 3 * w) * (4 * K - 3 * w)) by ring.
  assert (0 <= (K - 3 * w) * (K - 3 * w) * (4 * K - 3 * w)).
  { apply Z.mul_nonneg_nonneg; [apply Z.square_nonneg|lia]. }
  lia.
Qed.

Lemma newton_exact_upper (x y : Z) :
  0 < x -> 0 <= y -> x * (y * y) <= newton_safe ->
  x * (newton_exact x y * newton_exact x y) <= newton_bound.
Proof.
  intros Hx Hy Hs.
  pose proof (newton_exact_nonneg x y Hy Hs) as Hu.
  unfold newton_safe in Hs. unfold newton_bound.
  set (u := newton_exact x y) in *.
  set (w := x * (y * y)) in *.
  assert (Hw : 0 <= w) by (unfold w; nia).
  assert (H1 : 8589934592 * u <= y * (12884967423 - w)).
  { unfold u, newton_exact. fold w.
    pose proof (Z.div_mod w 65536 ltac:(lia)) as Hd.
    pose proof (Z.mod_pos_bound w 65536 ltac:(lia)) as Hm.
    set (q := w / 65536) in *.
    pose proof (Z.mul_div_le (y * (196608 - q)) 131072 ltac:(lia)) as Hd2.
    nia. }
  assert (H2 : (8589934592 * u) * (8589934592 * u)
               <= (y * (12884967423 - w)) * (y * (12884967423 - w))).
  { apply Z.square_le_mono_nonneg; lia. }
  pose proof (cubic_max 12884967423 w ltac:(lia)) as H3.
  assert (H4 : x * ((y * (12884967423 - w)) * (y * (12884967423 - w)))
               = w * ((12884967423 - w) * (12884967423 - w)))
    by (unfold w; ring).
  assert (H5 : x * ((8589934592 * u) * (8589934592 * u))
               <= w * ((12884967423 - w) * (12884967423 - w))).
  { rewrite <- H4. apply Z.mul_le_mono_nonneg_l; lia. }
  assert (H6 : x * ((8589934592 * u) * (8589934592 * u))
               = 73786976294838206464 * (x * (u * u))) by ring.
  rewrite H6 in H5.
  lia.
Qed.

(** ** The estimate and the whole function *)

Lemma fast_rsqrt_steps (x : Z) :
  x <> 0 -> x <> 1 ->
  fast_rsqrt x
  = (y <- rsqrt_estimate x ;; Some (newton_step x (newton_step x y))).
Proof.
  intros H0 H1. unfold fast_rsqrt, rsqrt_estimate.
  destruct (Z.eqb_spec x 0); [contradiction|].
  destruct (Z.eqb_spec x 1); [contradiction|].
  cbv zeta.
  destruct (table_get (31 - clz x)) as [y0|]; [|reflexivity].
  cbn [bind].
  destruct (interpolate x (31 - clz x) y0) as [y|]; reflexivity.
Qed.

(** The estimate lies above the value used for the next table entry and
    not above the entry of its octave. *)
Lemma rsqrt_estimate_bounds (x : Z) :
  in_u32 x -> 1 < x ->
  exists y0 y_next y,
    table_get (31 - clz x) = Some y0 /\
    interp_y_next (31 - clz x) = Some y_next /\
    rsqrt_estimate x = Some y /\
    0 <= y_next < y /\ y <= y0.
Proof.
  intros Hx Hgt.
  destruct (exp_bracket x Hx Hgt) as [He Hb].
  unfold rsqrt_estimate. cbv zeta.
  set (exp := 31 - clz x) in *.
  destruct (table_step exp) as (y0 & y_next & Hy0 & Hyn & Hlt & Hle);
    [lia|].
  rewrite Hy0. cbn [bind].
  destruct (Z.eq_dec x (2 ^ exp)) as [E|Hne].
  - exists y0, y_next, y0. rewrite E at 1.
    rewrite interpolate_pow2 by lia.
    split; [reflexivity|]. split; [assumption|]. split; [reflexivity|]. lia.
  - destruct (interpolate_above x exp y0 y_next)
      as (_ & _ & _ & _ & Hcb & Hi); try assumption; try lia.
    cbv zeta in Hcb, Hi.
    exists y0, y_next,
      (y0 - (y0 - y_next) * ((x - 2 ^ exp) * 65536 / 2 ^ exp) / 65536).
    split; [reflexivity|]. split; [assumption|]. split; [exact Hi|]. lia.
Qed.

Lemma octave_ok_spec (e y0 y_next : Z) :
  1 <= e <= 31 ->
  table_get e = Some y0 -> interp_y_next e = Some y_next ->
  2 ^ (e + 1) * (y0 * y0) <= newton_safe /\ y0 <= 46341 /\
  131072 <= (y_next + 1) * (196608 - 2 ^ (e + 1) * (y0 * y0) / 65536).
Proof.
  intros He Hy0 Hyn.
  assert (H : octave_ok e = true).
  { apply (Zrange_forallb octave_ok 32); [vm_compute; reflexivity|lia]. }
  unfold octave_ok in H. rewrite Hy0, Hyn in H.
  destruct (Z.eqb_spec e 0); [lia|]. cbn [orb] in H.
  apply andb_prop in H. destruct H as [H H3].
  apply andb_prop in H. destruct H as [H1 H2].
  apply Z.leb_le in H1, H2, H3. auto.
Qed.

(** An update from a value whose square times [x] is within the bound
    does not lower it. *)
Lemma newton_exact_ge (x u : Z) :
  0 <= x -> 0 <= u -> x * (u * u) <= newton_bound ->
  u <= newton_exact x u.
Proof.
  intros Hx Hu Hb. unfold newton_bound in Hb. unfold newton_exact.
  assert (Hq : x * (u * u) / 65536 < 65537)
    by (apply Z.div_lt_upper_bound; lia).
  apply Z.div_le_lower_bound; [lia|]. nia.
Qed.

(** The whole of [fast_rsqrt] above 1: no conversion to 32 bits drops a
    bit, so the result is the integer formula applied twice to the
    estimate. *)
Lemma fast_rsqrt_analysis (x : Z) :
  in_u32 x -> 1 < x ->
  exists y u r,
    rsqrt_estimate x = Some y /\
    newton_step x y = u /\ u = newton_exact x y /\
    newton_step x u = r /\ r = newton_exact x u /\
    fast_rsqrt x = Some r /\
    x * (y * y) <= newton_safe /\
    x * (u * u) <= newton_bound /\
    x * (r * r) <= newton_bound /\
    1 <= u <= r.
Proof.
  intros Hx Hgt.
  destruct (exp_bracket x Hx Hgt) as [He Hb].
  destruct (rsqrt_estimate_bounds x Hx Hgt)
    as (y0 & y_next & y & Hy0 & Hyn & Hest & Hlo & Hhi).
  destruct (octave_ok_spec _ y0 y_next He Hy0 Hyn) as (Hs & H46 & Hpos).
  set (exp := 31 - clz x) in *.
  assert (Hp : 0 < 2 ^ (exp + 1)) by (apply pow2_pos; lia).
  assert (Hyy : y * y <= y0 * y0) by nia.
  assert (Hw : x * (y * y) <= 2 ^ (exp + 1) * (y0 * y0)) by nia.
  assert (Hsafe : x * (y * y) <= newton_safe) by lia.
  assert (Hy32 : y * y < modulus32) by (rewrite modulus32_eq; nia).
  pose proof (newton_step_no_wrap x y Hx ltac:(lia) Hy32 Hsafe) as Hn1.
  pose proof (newton_exact_upper x y ltac:(lia) ltac:(lia) Hsafe) as Hu1.
  set (u := newton_exact x y) in *.
  assert (Hu0 : 1 <= u).
  { unfold u, newton_exact.
    apply Z.div_le_lower_bound; [lia|].
    assert (Hq : x * (y * y) / 65536 <= 2 ^ (exp + 1) * (y0 * y0) / 65536)
      by (apply Z.div_le_mono; lia).
    assert (Hq0 : 0 <= 2 ^ (exp + 1) * (y0 * y0) / 65536)
      by (apply Z.div_pos; nia).
    unfold newton_safe in Hs.
    assert (Hq1 : 2 ^ (exp + 1) * (y0 * y0) / 65536 < 196609)
      by (apply Z.div_lt_upper_bound; lia).
    nia. }
  assert (Hb1 : x * (u * u) <= newton_safe)
    by (unfold newton_bound, newton_safe in *; lia).
  assert (Hu32 : u * u < modulus32).
  { rewrite modulus32_eq. unfold newton_bound in Hu1. nia. }
  pose proof (newton_step_no_wrap x u Hx ltac:(lia) Hu32 Hb1) as Hn2.
  pose proof (newton_exact_upper x u ltac:(lia) ltac:(lia) Hb1) as Hu2.
  pose proof (newton_exact_ge x u ltac:(lia) ltac:(lia) Hu1) as Hge.
  exists y, u, (newton_exact x u).
  repeat split; try assumption; try reflexivity; try lia.
  rewrite fast_rsqrt_steps by lia.
  rewrite Hest. cbn [bind]. rewrite Hn1, Hn2. reflexivity.
Qed.

(** ** Monotonicity of the estimate *)

Lemma rsqrt_table_antitone (i j a b : Z) :
  i <= j -> table_get i = Some a -> table_get j = Some b -> b <= a.
Proof.
  intros Hij Ha Hb.
  assert (Hi : 0 <= i < 32).
  { destruct (Z.lt_ge_cases i 0); [rewrite table_get_none in Ha by lia; discriminate|].
    destruct (Z.lt_ge_cases i 32); [lia|].
    rewrite table_get_none in Ha by lia; discriminate. }
  assert (Hj : 0 <= j < 32).
  { destruct (Z.lt_ge_cases j 32); [lia|].
    rewrite table_get_none in Hb by lia; discriminate. }
  assert (H : table_pair_ok i j = true).
  { apply (Zrange_forallb (table_pair_ok i) 32); [|lia].
    apply (Zrange_forallb
             (fun u => forallb (table_pair_ok u) (Zrange 32)) 32);
      [vm_compute; reflexivity|lia]. }
  unfold table_pair_ok in H.
  rewrite (proj2 (Z.leb_le i j) Hij), Ha, Hb in H.
  apply Z.leb_le in H. exact H.
Qed.

Lemma rsqrt_estimate_formula (x e y0 y_next : Z) :
  1 <= e <= 31 -> 2 ^ e <= x < 2 ^ (e + 1) ->
  table_get e = Some y0 -> interp_y_next e = Some y_next ->
  interpolate x e y0 = Some (estimate_formula x e y0 y_next).
Proof.
  intros He Hx Hy0 Hyn. unfold estimate_formula.
  destruct (Z.eq_dec x (2 ^ e)) as [E|Hne].
  - rewrite E at 1. rewrite interpolate_pow2 by lia.
    rewrite E, Z.sub_diag. simpl Z.mul.
    rewrite Z.div_0_l by (pose proof (pow2_pos e); lia).
    rewrite Z.mul_0_r, Z.div_0_l by lia. f_equal. lia.
  - destruct (interpolate_above x e y0 y_next)
      as (_ & _ & _ & _ & _ & Hi); try assumption; try lia.
Qed.

Lemma exp_mono (x1 x2 : Z) :
  in_u32 x1 -> in_u32 x2 -> 1 < x1 -> x1 <= x2 ->
  31 - clz x1 <= 31 - clz x2.
Proof.
  intros H1 H2 Hgt Hle.
  destruct (exp_bracket x1 H1 Hgt) as [He1 Hb1].
  destruct (exp_bracket x2 H2 ltac:(lia)) as [He2 Hb2].
  destruct (Z.le_gt_cases (31 - clz x1) (31 - clz x2)) as [|Hlt];
    [assumption|].
  assert (2 ^ (31 - clz x2 + 1) <= 2 ^ (31 - clz x1))
    by (apply Z.pow_le_mono_r; lia).
  lia.
Qed.

Lemma rsqrt_estimate_antitone_aux (x1 x2 : Z) :
  in_u32 x1 -> in_u32 x2 -> 1 < x1 -> x1 <= x2 ->
  exists y1 y2,
    rsqrt_estimate x1 = Some y1 /\ rsqrt_estimate x2 = Some y2 /\ y2 <= y1.
Proof.
  intros H1 H2 Hgt Hle.
  pose proof (exp_mono x1 x2 H1 H2 Hgt Hle) as Hexp.
  destruct (exp_bracket x1 H1 Hgt) as [He1 Hb1].
  destruct (exp_bracket x2 H2 ltac:(lia)) as [He2 Hb2].
  destruct (rsqrt_estimate_bounds x1 H1 Hgt)
    as (a0 & an & y1 & Ha0 & Han & Hest1 & Hlo1 & Hhi1).
  destruct (rsqrt_estimate_bounds x2 H2 ltac:(lia))
    as (b0 & bn & y2 & Hb0 & Hbn & Hest2 & Hlo2 & Hhi2).
  exists y1, y2. split; [assumption|]. split; [assumption|].
  set (e1 := 31 - clz x1) in *. set (e2 := 31 - clz x2) in *.
  destruct (Z.eq_dec e1 e2) as [E|Hne].
  - rewrite <- E in *.
    assert (a0 = b0) by congruence. assert (an = bn) by congruence.
    subst b0 bn.
    unfold rsqrt_estimate in Hest1, Hest2. cbv zeta in Hest1, Hest2.
    fold e1 in Hest1. fold e2 in Hest2. rewrite <- E in Hest2.
    rewrite Ha0 in Hest1, Hest2. cbn [bind] in Hest1, Hest2.
    rewrite (rsqrt_estimate_formula x1 e1 a0 an) in Hest1
      by (assumption || lia).
    rewrite (rsqrt_estimate_formula x2 e1 a0 an) in Hest2
      by (assumption || lia).
    injection Hest1 as <-. injection Hest2 as <-.
    unfold estimate_formula.
    pose proof (pow2_pos e1 ltac:(lia)) as Hp.
    assert (Hf : (x1 - 2 ^ e1) * 65536 / 2 ^ e1
                 <= (x2 - 2 ^ e1) * 65536 / 2 ^ e1)
      by (apply Z.div_le_mono; lia).
    assert (Hc : (a0 - an) * ((x1 - 2 ^ e1) * 65536 / 2 ^ e1) / 65536
                 <= (a0 - an) * ((x2 - 2 ^ e1) * 65536 / 2 ^ e1) / 65536).
    { apply Z.div_le_mono; [lia|].
      apply Z.mul_le_mono_nonneg_l; lia. }
    lia.
  - assert (Hlt : e1 < 31) by lia.
    unfold interp_y_next in Han.
    rewrite (proj2 (Z.ltb_lt e1 31) Hlt) in Han.
    pose proof (rsqrt_table_antitone (e1 + 1) e2 an b0 ltac:(lia) Han Hb0).
    lia.
Qed.

(** ** mul32 and clz *)

Lemma in_u32_intro (z : Z) : 0 <= z < 4294967296 -> in_u32 z.
Proof. intros H. unfold in_u32. rewrite modulus32_eq. exact H. Qed.

(** X1: the loop of [mul32] keeps an invariant: after its first [n]
    iterations, [n <= 32], the accumulator is [a] times the low [n] bits of
    [b]. *)
Theorem mul32_prefix (a b : Z) (n : nat) :
  in_u32 a -> (n <= 32)%nat ->
  for_loop n 0 (mul32_body a b) 0 = a * (b mod 2 ^ Z.of_nat n).
Proof.
  intros Ha Hn.
  replace 0 with (mul32_partial a b 0) at 2
    by (unfold mul32_partial; rewrite Z.mod_1_r; ring).
  rewrite (mul32_loop a b Ha) by lia.
  reflexivity.
Qed.

Lemma mul32_prefix_5_3 :
  for_loop 2 0 (mul32_body 5 3) 0 = 5 * (3 mod 2 ^ Z.of_nat 2).
Proof.
  assert (Ha : in_u32 5) by (apply in_u32_intro; lia).
  assert (Hn : (2 <= 32)%nat) by lia.
  exact (mul32_prefix 5 3 2 Ha Hn).
Defined.

(** X2: [mul32] does not depend on the order of its operands, although only
    the bits of the second drive the loop. *)
Theorem mul32_comm (a b : Z) :
  in_u32 a -> in_u32 b -> mul32 a b = mul32 b a.
Proof.
  intros Ha Hb. rewrite !mul32_exact by assumption. apply Z.mul_comm.
Qed.

Lemma mul32_comm_6_7 : mul32 6 7 = mul32 7 6.
Proof.
  assert (Ha : in_u32 6) by (apply in_u32_intro; lia).
  assert (Hb : in_u32 7) by (apply in_u32_intro; lia).
  exact (mul32_comm 6 7 Ha Hb).
Defined.

(** X3: [clz] is antitone: a larger 32-bit value has no more leading
    zeros. *)
Theorem clz_antitone (x y : Z) :
  in_u32 x -> in_u32 y -> x <= y -> clz y <= clz x.
Proof.
  intros Hx Hy Hle.
  destruct (Z.eq_dec x 0) as [->|Hx0].
  - change (clz 0) with 32.
    destruct (Z.eq_dec y 0) as [->|Hy0]; [reflexivity|].
    pose proof (clz_bracket y Hy Hy0). lia.
  - assert (Hy0 : y <> 0) by (destruct Hx; lia).
    rewrite (clz_log2 x), (clz_log2 y) by assumption.
    pose proof (Z.log2_le_mono x y Hle). lia.
Qed.

Lemma clz_antitone_5_100 : clz 100 <= clz 5.
Proof.
  assert (Hx : in_u32 5) by (apply in_u32_intro; lia).
  assert (Hy : in_u32 100) by (apply in_u32_intro; lia).
  assert (Hle : 5 <= 100) by lia.
  exact (clz_antitone 5 100 Hx Hy Hle).
Defined.

(** X4: shifting a nonzero [x] left by [clz x] loses no bit and sets bit 31:
    the 32-bit result is [x * 2^(clz x)] and lies in [2^31, 2^32). *)
Theorem clz_normalizes (x : Z) :
  in_u32 x -> x <> 0 ->
  u32 (Z.shiftl x (clz x)) = x * 2 ^ clz x /\
  2 ^ 31 <= u32 (Z.shiftl x (clz x)) < 2 ^ 32 /\
  Z.testbit (u32 (Z.shiftl x (clz x))) 31 = true.
Proof.
  intros Hx Hx0.
  destruct (clz_bracket x Hx Hx0) as [Hc [Hlo Hhi]].
  pose proof (pow2_pos (clz x) (proj1 Hc)) as Hp.
  assert (E1 : 2 ^ 31 = 2 ^ (31 - clz x) * 2 ^ clz x)
    by (rewrite <- Z.pow_add_r by lia; f_equal; lia).
  assert (E2 : 2 ^ 32 = 2 ^ (32 - clz x) * 2 ^ clz x)
    by (rewrite <- Z.pow_add_r by lia; f_equal; lia).
  assert (Hr : 2 ^ 31 <= x * 2 ^ clz x < 2 ^ 32).
  { rewrite E1, E2. split.
    - apply Z.mul_le_mono_nonneg_r; lia.
    - apply Z.mul_lt_mono_pos_r; lia. }
  rewrite Z.shiftl_mul_pow2 by lia.
  assert (Es : u32 (x * 2 ^ clz x) = x * 2 ^ clz x).
  { apply u32_small. unfold in_u32, modulus32. lia. }
  rewrite Es. split; [reflexivity|]. split; [exact Hr|].
  assert (El : Z.log2 (x * 2 ^ clz x) = 31).
  { apply Z.log2_unique; [lia|]. exact Hr. }
  rewrite <- El. apply Z.bit_log2. lia.
Qed.

Lemma clz_normalizes_100 :
  u32 (Z.shiftl 100 (clz 100)) = 100 * 2 ^ clz 100 /\
  2 ^ 31 <= u32 (Z.shiftl 100 (clz 100)) < 2 ^ 32 /\
  Z.testbit (u32 (Z.shiftl 100 (clz 100))) 31 = true.
Proof.
  assert (Hx : in_u32 100) by (apply in_u32_intro; lia).
  assert (H0 : 100 <> 0) by lia.
  exact (clz_normalizes 100 Hx H0).
Defined.

(** X5: halving a nonzero value adds exactly one leading zero (down to
    [clz 0 = 32] from 1). *)
Theorem clz_shift_right (x : Z) :
  in_u32 x -> x <> 0 -> clz (Z.shiftr x 1) = clz x + 1.
Proof.
  intros Hx Hx0.
  assert (Hpos : 0 < x) by (destruct Hx; lia).
  rewrite Z.shiftr_div_pow2 by lia. change (2 ^ 1) with 2.
  destruct (Z.eq_dec x 1) as [->|Hx1]; [reflexivity|].
  assert (Hh : in_u32 (x / 2)).
  { unfold in_u32 in *. rewrite modulus32_eq in *.
    split; [apply Z.div_pos; lia|apply Z.div_lt_upper_bound; lia]. }
  assert (Hh0 : x / 2 <> 0).
  { intros E. assert (x < 2); [|lia].
    destruct (Z.lt_ge_cases x 2); [assumption|].
    assert (1 <= x / 2) by (apply Z.div_le_lower_bound; lia). lia. }
  rewrite (clz_log2 x), (clz_log2 (x / 2)) by assumption.
  pose proof (Z.log2_shiftr x 1 Hpos) as Hl.
  rewrite Z.shiftr_div_pow2 in Hl by lia. change (2 ^ 1) with 2 in Hl.
  assert (1 <= Z.log2 x) by (apply (Z.log2_le_pow2 x 1); lia).
  lia.
Qed.

Lemma clz_shift_right_100 : clz (Z.shiftr 100 1) = clz 100 + 1.
Proof.
  assert (Hx : in_u32 100) by (apply in_u32_intro; lia).
  assert (H0 : 100 <> 0) by lia.
  exact (clz_shift_right 100 Hx H0).
Defined.

(** X6: [clz] returns 32 for 0 only, and its result is always in [0, 32]. *)
Theorem clz_full_iff_zero (x : Z) :
  in_u32 x -> (clz x = 32 <-> x = 0) /\ 0 <= clz x <= 32.
Proof.
  intros Hx.
  destruct (Z.eq_dec x 0) as [->|Hx0].
  - change (clz 0) with 32. split; [tauto|lia].
  - pose proof (clz_bracket x Hx Hx0). split; [split; intros; lia|lia].
Qed.

Lemma clz_full_iff_zero_7 : (clz 7 = 32 <-> 7 = 0) /\ 0 <= clz 7 <= 32.
Proof.
  assert (Hx : in_u32 7) by (apply in_u32_intro; lia).
  exact (clz_full_iff_zero 7 Hx).
Defined.

(** X7: when [y^2] fits 32 bits and [x * y^2 <= 12884967423], none of the
    three conversions to 32 bits in a Newton iteration changes a value: the
    step is [y * (196608 - x*y^2/65536) / 131072]; and its result [u]
    satisfies [x * u^2 <= 4295032831]. *)
Theorem newton_step_exact (x y : Z) :
  in_u32 x -> 0 < x -> 0 <= y ->
  y * y < 2 ^ 32 -> x * (y * y) <= 12884967423 ->
  newton_step x y = y * (196608 - x * (y * y) / 65536) / 131072 /\
  x * (newton_step x y * newton_step x y) <= 4295032831.
Proof.
  intros Hx Hpos Hy Hyy Hs.
  rewrite (newton_step_no_wrap x y Hx Hy Hyy Hs).
  split; [reflexivity|].
  exact (newton_exact_upper x y Hpos Hy Hs).
Qed.

Lemma newton_step_exact_100 :
  newton_step 100 6553
  = 6553 * (196608 - 100 * (6553 * 6553) / 65536) / 131072 /\
  100 * (newton_step 100 6553 * newton_step 100 6553) <= 4295032831.
Proof.
  assert (Hx : in_u32 100) by (apply in_u32_intro; lia).
  assert (Hp : 0 < 100) by lia.
  assert (Hy : 0 <= 6553) by lia.
  assert (Hyy : 6553 * 6553 < 2 ^ 32) by reflexivity.
  assert (Hs : 100 * (6553 * 6553) <= 12884967423) by (vm_compute; discriminate).
  exact (newton_step_exact 100 6553 Hx Hp Hy Hyy Hs).
Defined.

(** X8: for every 32-bit [x > 1] the two Newton iterations of [fast_rsqrt]
    never lose a bit to a conversion: the result is the integer formula
    applied twice to the estimate of steps 1 to 3. *)
Theorem fast_rsqrt_no_truncation (x : Z) :
  in_u32 x -> 1 < x ->
  exists y,
    rsqrt_estimate x = Some y /\
    newton_step x y = newton_exact x y /\
    newton_step x (newton_exact x y) = newton_exact x (newton_exact x y) /\
    fast_rsqrt x = Some (newton_exact x (newton_exact x y)).
Proof.
  intros Hx Hgt.
  destruct (fast_rsqrt_analysis x Hx Hgt)
    as (y & u & r & Hest & Hn1 & Eu & Hn2 & Er & Hf & _).
  exists y.
  split; [exact Hest|].
  split; [rewrite Hn1; exact Eu|].
  rewrite <- Eu. split.
  - rewrite Hn2. exact Er.
  - rewrite <- Er. exact Hf.
Qed.

Lemma fast_rsqrt_no_truncation_100 :
  exists y,
    rsqrt_estimate 100 = Some y /\
    newton_step 100 y = newton_exact 100 y /\
    newton_step 100 (newton_exact 100 y)
    = newton_exact 100 (newton_exact 100 y) /\
    fast_rsqrt 100 = Some (newton_exact 100 (newton_exact 100 y)).
Proof.
  assert (Hx : in_u32 100) by (apply in_u32_intro; lia).
  assert (Hgt : 1 < 100) by lia.
  exact (fast_rsqrt_no_truncation 100 Hx Hgt).
Defined.

Lemma fast_rsqrt_nonzero_cases (x : Z) :
  in_u32 x -> 1 <= x ->
  exists r, fast_rsqrt x = Some r /\ 1 <= r <= 65536 /\
            x * (r * r) <= newton_bound /\ (1 < x -> r <= 46341).
Proof.
  intros Hx H1.
  destruct (Z.eq_dec x 1) as [->|Hne].
  - exists 65536. split; [reflexivity|]. unfold newton_bound. lia.
  - destruct (fast_rsqrt_analysis x Hx ltac:(lia))
      as (y & u & r & _ & _ & _ & _ & _ & Hf & _ & _ & Hr & Hu).
    exists r. split; [exact Hf|].
    unfold newton_bound in *.
    assert (r <= 46341) by nia. lia.
Qed.

(** X9: the result never overshoots: for every 32-bit [x >= 1],
    [x * r^2 <= 4295032831], so [r] is at most [65536 / sqrt x] and one part
    in 100000. *)
Theorem fast_rsqrt_upper_bound (x : Z) :
  in_u32 x -> 1 <= x ->
  exists r,
    fast_rsqrt x = Some r /\
    x * (r * r) <= 4295032831 /\
    (IZR r <= (1 + / 100000) * (65536 / sqrt (IZR x)))%R.
Proof.
  intros Hx H1.
  destruct (fast_rsqrt_nonzero_cases x Hx H1) as (r & Hf & Hr & Hb & _).
  exists r. split; [exact Hf|]. split; [exact Hb|].
  unfold newton_bound in Hb.
  assert (Hxr : (0 < IZR x)%R) by (apply IZR_lt; lia).
  pose proof (sqrt_lt_R0 _ Hxr) as Hs.
  pose proof (sqrt_sqrt _ (Rlt_le _ _ Hxr)) as Hss.
  set (s := sqrt (IZR x)) in *.
  assert (Hrr : (0 <= IZR r)%R) by (apply IZR_le; lia).
  assert (HbR : (IZR x * (IZR r * IZR r) <= 4295032831)%R).
  { rewrite <- !mult_IZR. apply IZR_le. exact Hb. }
  assert (Hprod : (IZR r * s <= (1 + / 100000) * 65536)%R).
  { apply Rnot_lt_le. intros Hc.
    assert (((1 + / 100000) * 65536) * ((1 + / 100000) * 65536)
            < (IZR r * s) * (IZR r * s))%R by nra.
    replace ((IZR r * s) * (IZR r * s))%R
      with ((s * s) * (IZR r * IZR r))%R in H by ring.
    rewrite Hss in H. lra. }
  unfold Rdiv. rewrite <- Rmult_assoc.
  apply (Rmult_le_reg_r s); [exact Hs|].
  rewrite Rmult_assoc, Rinv_l by lra. lra.
Qed.

Lemma fast_rsqrt_upper_bound_100 :
  exists r,
    fast_rsqrt 100 = Some r /\
    100 * (r * r) <= 4295032831 /\
    (IZR r <= (1 + / 100000) * (65536 / sqrt (IZR 100)))%R.
Proof.
  assert (Hx : in_u32 100) by (apply in_u32_intro; lia).
  assert (H1 : 1 <= 100) by lia.
  exact (fast_rsqrt_upper_bound 100 Hx H1).
Defined.

(** X10: the sentinel [0xFFFFFFFF] is returned for 0 only; for [x >= 1] the
    result is in [1, 65536], and for [x > 1] in [1, 46341]: [fast_rsqrt]
    never returns 0. *)
Theorem fast_rsqrt_range (x : Z) :
  in_u32 x ->
  (fast_rsqrt x = Some 0xFFFFFFFF <-> x = 0) /\
  (1 <= x -> exists r, fast_rsqrt x = Some r /\ 1 <= r <= 65536) /\
  (1 < x -> exists r, fast_rsqrt x = Some r /\ 1 <= r <= 46341).
Proof.
  intros Hx. split; [|split].
  - split.
    + intros Hf. destruct (Z.eq_dec x 0) as [|Hne]; [assumption|].
      assert (H1 : 1 <= x) by (destruct Hx; lia).
      destruct (fast_rsqrt_nonzero_cases x Hx H1) as (r & Hr & Hb & _).
      rewrite Hr in Hf. injection Hf as E. lia.
    + intros ->. reflexivity.
  - intros H1.
    destruct (fast_rsqrt_nonzero_cases x Hx H1) as (r & Hr & Hb & _).
    exists r. split; assumption.
  - intros H1.
    destruct (fast_rsqrt_nonzero_cases x Hx ltac:(lia))
      as (r & Hr & Hb & _ & H46).
    exists r. split; [assumption|]. specialize (H46 H1). lia.
Qed.

Lemma fast_rsqrt_range_100 :
  (fast_rsqrt 100 = Some 0xFFFFFFFF <-> 100 = 0) /\
  (1 <= 100 -> exists r, fast_rsqrt 100 = Some r /\ 1 <= r <= 65536) /\
  (1 < 100 -> exists r, fast_rsqrt 100 = Some r /\ 1 <= r <= 46341).
Proof.
  assert (Hx : in_u32 100) by (apply in_u32_intro; lia).
  exact (fast_rsqrt_range 100 Hx).
Defined.

(** X11: for [x > 1] the value [u] after the first Newton iteration is at
    least 1 and satisfies [x * u^2 <= 4295032831], and the second iteration
    never lowers it. *)
Theorem newton_second_not_lower (x : Z) :
  in_u32 x -> 1 < x ->
  exists y u r,
    rsqrt_estimate x = Some y /\ u = newton_step x y /\
    r = newton_step x u /\ fast_rsqrt x = Some r /\
    x * (u * u) <= 4295032831 /\ 1 <= u <= r.
Proof.
  intros Hx Hgt.
  destruct (fast_rsqrt_analysis x Hx Hgt)
    as (y & u & r & Hest & Hn1 & Eu & Hn2 & Er & Hf & _ & Hu & _ & Hur).
  exists y, u, r. unfold newton_bound in Hu.
  repeat split; auto; lia.
Qed.

Lemma newton_second_not_lower_100 :
  exists y u r,
    rsqrt_estimate 100 = Some y /\ u = newton_step 100 y /\
    r = newton_step 100 u /\ fast_rsqrt 100 = Some r /\
    100 * (u * u) <= 4295032831 /\ 1 <= u <= r.
Proof.
  assert (Hx : in_u32 100) by (apply in_u32_intro; lia).
  assert (Hgt : 1 < 100) by lia.
  exact (newton_second_not_lower 100 Hx Hgt).
Defined.

(** X12: on the whole top octave, [2^31 <= x < 2^32], [fast_rsqrt] returns 1
    (where [65536 / sqrt x] goes from 1.41 down to 1). *)
Theorem fast_rsqrt_top_octave (x : Z) :
  2 ^ 31 <= x < 2 ^ 32 -> fast_rsqrt x = Some 1.
Proof.
  intros Hr. change (2 ^ 31) with 2147483648 in Hr.
  change (2 ^ 32) with 4294967296 in Hr.
  assert (Hx : in_u32 x) by (apply in_u32_intro; lia).
  assert (Hgt : 1 < x) by lia.
  destruct (exp_bracket x Hx Hgt) as [He Hb].
  assert (E : 31 - clz x = 31).
  { destruct (Z.eq_dec (31 - clz x) 31) as [|Hne]; [assumption|].
    assert (2 ^ (31 - clz x + 1) <= 2 ^ 31)
      by (apply Z.pow_le_mono_r; lia).
    change (2 ^ 31) with 2147483648 in *. lia. }
  destruct (rsqrt_estimate_bounds x Hx Hgt)
    as (y0 & y_next & y & Hy0 & Hyn & Hest & Hlo & Hhi).
  rewrite E in Hy0, Hyn.
  assert (y0 = 1) by (vm_compute in Hy0; congruence).
  assert (y_next = 0) by (vm_compute in Hyn; congruence).
  assert (Ey : y = 1) by lia. subst y.
  destruct (fast_rsqrt_analysis x Hx Hgt)
    as (y' & u & r & Hest' & _ & Eu & _ & Er & Hf & _).
  assert (y' = 1) by congruence. subst y'.
  assert (Hone : newton_exact x 1 = 1).
  { unfold newton_exact.
    assert (32768 <= x * (1 * 1) / 65536)
      by (apply Z.div_le_lower_bound; lia).
    assert (x * (1 * 1) / 65536 < 65536)
      by (apply Z.div_lt_upper_bound; lia).
    symmetry.
    apply Z.div_unique with (r := 196608 - x * (1 * 1) / 65536 - 131072);
      lia. }
  rewrite Hone in Eu. subst u. rewrite Hone in Er. subst r. exact Hf.
Qed.

Lemma fast_rsqrt_top_octave_3e9 : fast_rsqrt 3000000000 = Some 1.
Proof.
  assert (H : 2 ^ 31 <= 3000000000 < 2 ^ 32)
    by (split; [vm_compute; discriminate|reflexivity]).
  exact (fast_rsqrt_top_octave 3000000000 H).
Defined.

(** X13: the estimate that enters the Newton iterations (table lookup and
    interpolation) is antitone in [x] over all inputs above 1, across
    octaves as well as inside them. *)
Theorem rsqrt_estimate_antitone (x1 x2 : Z) :
  in_u32 x1 -> in_u32 x2 -> 1 < x1 -> x1 <= x2 ->
  exists y1 y2,
    rsqrt_estimate x1 = Some y1 /\ rsqrt_estimate x2 = Some y2 /\
    y2 <= y1 /\
    fast_rsqrt x1 = Some (newton_step x1 (newton_step x1 y1)) /\
    fast_rsqrt x2 = Some (newton_step x2 (newton_step x2 y2)).
Proof.
  intros H1 H2 Hgt Hle.
  destruct (rsqrt_estimate_antitone_aux x1 x2 H1 H2 Hgt Hle)
    as (y1 & y2 & E1 & E2 & Hy).
  exists y1, y2.
  split; [exact E1|]. split; [exact E2|]. split; [exact Hy|].
  rewrite !fast_rsqrt_steps by lia. rewrite E1, E2. split; reflexivity.
Qed.

Lemma rsqrt_estimate_antitone_100_130 :
  exists y1 y2,
    rsqrt_estimate 100 = Some y1 /\ rsqrt_estimate 130 = Some y2 /\
    y2 <= y1 /\
    fast_rsqrt 100 = Some (newton_step 100 (newton_step 100 y1)) /\
    fast_rsqrt 130 = Some (newton_step 130 (newton_step 130 y2)).
Proof.
  assert (H1 : in_u32 100) by (apply in_u32_intro; lia).
  assert (H2 : in_u32 130) by (apply in_u32_intro; lia).
  assert (Hgt : 1 < 100) by lia.
  assert (Hle : 100 <= 130) by lia.
  exact (rsqrt_estimate_antitone 100 130 H1 H2 Hgt Hle).
Defined.

(** ** memcpy *)

Lemma store_same (m : memory) (a : Z) (v : Byte.byte) : store m a v a = v.
Proof. unfold store. rewrite Z.eqb_refl. reflexivity. Qed.

Lemma store_other (m : memory) (a b : Z) (v : Byte.byte) :
  b <> a -> store m a v b = m b.
Proof.
  intros H. unfold store. destruct (Z.eqb_spec b a); [contradiction|reflexivity].
Qed.

Lemma memcpy_loop_outside (n : nat) (d s : Z) (m : memory) (a : Z) :
  a < d \/ d + Z.of_nat n <= a -> memcpy_loop n d s m a = m a.
Proof.
  revert d s m. induction n as [|n IH]; intros d s m Ha.
  - reflexivity.
  - cbn [memcpy_loop]. rewrite IH by lia. apply store_other. lia.
Qed.

Lemma memcpy_loop_forward (n : nat) (d s : Z) (m : memory) (i : Z) :
  d <= s \/ s + Z.of_nat n <= d ->
  0 <= i < Z.of_nat n ->
  memcpy_loop n d s m (d + i) = m (s + i).
Proof.
  revert d s m i. induction n as [|n IH]; intros d s m i Hds Hi.
  - simpl in Hi. lia.
  - cbn [memcpy_loop].
    destruct (Z.eq_dec i 0) as [->|Hi0].
    + rewrite !Z.add_0_r.
      rewrite memcpy_loop_outside by lia. apply store_same.
    + replace (d + i) with (d + 1 + (i - 1)) by lia.
      rewrite IH by lia.
      replace (s + 1 + (i - 1)) with (s + i) by lia.
      apply store_other. lia.
Qed.

Lemma mod_step (i k : Z) :
  0 < k -> 0 < i ->
  ((i - 1) mod k = k - 1 /\ i mod k = 0) \/
  ((i - 1) mod k < k - 1 /\ i mod k = (i - 1) mod k + 1).
Proof.
  intros Hk Hi.
  pose proof (Z.div_mod (i - 1) k ltac:(lia)) as Hd.
  pose proof (Z.mod_pos_bound (i - 1) k Hk) as Hm.
  destruct (Z.eq_dec ((i - 1) mod k) (k - 1)) as [E|Hne].
  - left. split; [assumption|].
    symmetry. apply Z.mod_unique with (q := (i - 1) / k + 1); lia.
  - right. split; [lia|].
    symmetry. apply Z.mod_unique with (q := (i - 1) / k); lia.
Qed.

Lemma memcpy_loop_overlap (n : nat) (d s k : Z) (m : memory) (i : Z) :
  0 < k -> d = s + k ->
  0 <= i < Z.of_nat n ->
  memcpy_loop n d s m (d + i) = m (s + i mod k).
Proof.
  intros Hk. revert d s m i.
  induction n as [|n IH]; intros d s m i Hd Hi.
  - simpl in Hi. lia.
  - cbn [memcpy_loop].
    destruct (Z.eq_dec i 0) as [->|Hi0].
    + rewrite Z.mod_0_l by lia. rewrite !Z.add_0_r.
      rewrite memcpy_loop_outside by lia. apply store_same.
    + replace (d + i) with (d + 1 + (i - 1)) by lia.
      rewrite IH by lia.
      destruct (mod_step i k Hk ltac:(lia)) as [[E1 E2]|[E1 E2]].
      * rewrite E1, E2.
        replace (s + 1 + (k - 1)) with d by lia.
        rewrite store_same. f_equal. lia.
      * rewrite E2. rewrite store_other by lia. f_equal. lia.
Qed.

(** X17: [memcpy] changes no byte outside
    [dest, dest + n) and returns [dest]. *)
Theorem memcpy_frame (m : memory) (dest src n a : Z) :
  a < dest \/ dest + n <= a ->
  fst (memcpy m dest src n) a = m a /\ snd (memcpy m dest src n) = dest.
Proof.
  intros Ha. split; [|reflexivity]. unfold memcpy. cbn [fst].
  apply memcpy_loop_outside.
  destruct (Z.le_gt_cases 0 n); [rewrite Z2Nat.id by lia; lia|].
  replace (Z.to_nat n) with 0%nat by lia. simpl. lia.
Qed.

(** X18: when [dest] is not above [src], or the two regions do not overlap,
    the [n] bytes at [dest] after [memcpy] are the [n] bytes that were at
    [src]. *)
Theorem memcpy_copies (m : memory) (dest src n i : Z) :
  dest <= src \/ src + n <= dest ->
  0 <= i < n ->
  fst (memcpy m dest src n) (dest + i) = m (src + i).
Proof.
  intros Hds Hi. unfold memcpy. cbn [fst].
  apply memcpy_loop_forward; rewrite Z2Nat.id by lia; lia.
Qed.

(** X19: when [dest] is [k > 0] bytes above [src], the forward copy repeats
    the first [k] source bytes: byte [i] of the destination is byte
    [i mod k] of the source. *)
Theorem memcpy_overlap (m : memory) (dest src n k i : Z) :
  0 < k -> dest = src + k ->
  0 <= i < n ->
  fst (memcpy m dest src n) (dest + i) = m (src + i mod k).
Proof.
  intros Hk Hd Hi. unfold memcpy. cbn [fst].
  apply memcpy_loop_overlap; try assumption.
  rewrite Z2Nat.id by lia. lia.
Qed.

(** ** get_cycles *)

Lemma clock_ok_le (clock : nat -> Z) (i j : nat) :
  clock_ok clock -> (i <= j)%nat -> clock i <= clock j.
Proof.
  intros H Hij. induction Hij as [|j Hij IH]; [lia|].
  destruct (H j) as [_ Hs]. lia.
Qed.

Lemma csr_cycleh_div (t : Z) : in_u64 t -> csr_cycleh t = t / 2 ^ 32.
Proof.
  intros Ht. unfold csr_cycleh. rewrite Z.shiftr_div_pow2 by lia.
  apply u32_small. unfold in_u64 in Ht. rewrite modulus64_eq in Ht.
  unfold in_u32. rewrite modulus32_eq. change (2 ^ 32) with 4294967296.
  split; [apply Z.div_pos; lia|apply Z.div_lt_upper_bound; lia].
Qed.

(** The two words put back together are the counter they come from. *)
Lemma join_words (t : Z) :
  in_u64 t ->
  Z.lor (u64 (Z.shiftl (t / 2 ^ 32) 32)) (csr_cycle t) = t.
Proof.
  intros Ht. unfold in_u64 in Ht. rewrite modulus64_eq in Ht.
  assert (Hh : 0 <= t / 2 ^ 32 < 4294967296).
  { change (2 ^ 32) with 4294967296.
    split; [apply Z.div_pos; lia|apply Z.div_lt_upper_bound; lia]. }
  rewrite Z.shiftl_mul_pow2 by lia.
  rewrite u64_small
    by (unfold in_u64; rewrite modulus64_eq;
        change (2 ^ 32) with 4294967296 in *; lia).
  unfold csr_cycle, u32, modulus32.
  rewrite <- Z.shiftl_mul_pow2 by lia.
  rewrite <- Z.shiftr_div_pow2 by lia.
  rewrite <- Z.land_ones by lia.
  apply Z.bits_inj'. intros n Hn.
  rewrite Z.lor_spec, Z.land_spec.
  destruct (Z.lt_ge_cases n 32) as [Hlt|Hge].
  - rewrite Z.shiftl_spec_low by lia.
    rewrite Z.ones_spec_low by lia. simpl. apply andb_true_r.
  - rewrite Z.shiftl_spec by lia. rewrite Z.shiftr_spec by lia.
    rewrite Z.ones_spec_high by lia. rewrite andb_false_r, orb_false_r.
    f_equal. lia.
Qed.

Lemma some_pair_inv {A B : Type} (a a' : A) (b b' : B) :
  Some (a, b) = Some (a', b') -> a = a' /\ b = b'.
Proof. intros H. inversion H. split; reflexivity. Qed.

Lemma get_cycles_snapshot_aux (fuel : nat) (clock : nat -> Z) (k : nat)
      (t : Z) (k' : nat) :
  clock_ok clock ->
  get_cycles fuel clock k = Some (t, k') ->
  (k + 3 <= k')%nat /\ t = clock (k' - 2)%nat.
Proof.
  intros Hok. revert k.
  induction fuel as [|fuel IH]; intros k Hg; [discriminate|].
  cbn [get_cycles] in Hg. cbv zeta in Hg.
  destruct (Hok k) as [H0 _].
  destruct (Hok (k + 1)%nat) as [H1 _].
  destruct (Hok (k + 2)%nat) as [H2 _].
  rewrite !csr_cycleh_div in Hg by assumption.
  destruct (Z.eqb_spec (clock k / 2 ^ 32) (clock (k + 2)%nat / 2 ^ 32))
    as [E|Hne].
  - destruct (some_pair_inv _ _ _ _ Hg) as [Et Ek]. subst k'. split; [lia|].
    replace (k + 3 - 2)%nat with (k + 1)%nat by lia.
    pose proof (clock_ok_le clock k (k + 1) Hok ltac:(lia)) as L1.
    pose proof (clock_ok_le clock (k + 1) (k + 2) Hok ltac:(lia)) as L2.
    assert (Eh : clock (k + 1)%nat / 2 ^ 32 = clock k / 2 ^ 32).
    { pose proof (Z.div_le_mono _ _ (2 ^ 32) ltac:(lia) L1).
      pose proof (Z.div_le_mono _ _ (2 ^ 32) ltac:(lia) L2). lia. }
    rewrite <- Et, <- Eh. apply join_words. exact H1.
  - destruct (IH _ Hg) as [Hk Ht]. split; [lia|exact Ht].
Qed.

Lemma get_cycles_terminates_aux (fuel : nat) (clock : nat -> Z) (k : nat) :
  clock_ok clock ->
  clock (k + 5)%nat - clock k < 2 ^ 32 ->
  (2 <= fuel)%nat ->
  exists t k', get_cycles fuel clock k = Some (t, k') /\
               (k' = k + 3 \/ k' = k + 6)%nat.
Proof.
  intros Hok Hslow Hfuel.
  destruct fuel as [|[|fuel]]; try lia.
  cbn [get_cycles]. cbv zeta.
  destruct (Hok k) as [H0 _].
  destruct (Hok (k + 2)%nat) as [H2 _].
  destruct (Hok (k + 3)%nat) as [H3 _].
  destruct (Hok (k + 3 + 2)%nat) as [H5 _].
  rewrite !csr_cycleh_div by assumption.
  destruct (Z.eqb_spec (clock k / 2 ^ 32) (clock (k + 2)%nat / 2 ^ 32))
    as [E|Hne].
  - eexists _, _. split; [reflexivity|left; reflexivity].
  - pose proof (clock_ok_le clock k (k + 2) Hok ltac:(lia)) as L1.
    pose proof (clock_ok_le clock (k + 2) (k + 3) Hok ltac:(lia)) as L2.
    pose proof (clock_ok_le clock (k + 3) (k + 3 + 2) Hok ltac:(lia)) as L3.
    replace (k + 3 + 2)%nat with (k + 5)%nat in * by lia.
    assert (Hsame : clock (k + 3)%nat / 2 ^ 32 = clock (k + 5)%nat / 2 ^ 32).
    { change (2 ^ 32) with 4294967296 in *.
      pose proof (Z.div_le_mono _ _ 4294967296 ltac:(lia) L1) as D1.
      pose proof (Z.div_le_mono _ _ 4294967296 ltac:(lia) L2) as D2.
      pose proof (Z.div_le_mono _ _ 4294967296 ltac:(lia) L3) as D3.
      pose proof (Z.div_mod (clock k) 4294967296 ltac:(lia)).
      pose proof (Z.mod_pos_bound (clock k) 4294967296 ltac:(lia)).
      pose proof (Z.div_mod (clock (k + 5)%nat) 4294967296 ltac:(lia)).
      pose proof (Z.mod_pos_bound (clock (k + 5)%nat) 4294967296 ltac:(lia)).
      lia. }
    rewrite Hsame, Z.eqb_refl.
    eexists _, _. split; [reflexivity|right; lia].
Qed.

(** ** main *)

Lemma wstore_same (m : wmemory) (a v : Z) : wstore m a v a = v.
Proof. unfold wstore. rewrite Z.eqb_refl. reflexivity. Qed.

Lemma wstore_other (m : wmemory) (a b v : Z) :
  b <> a -> wstore m a v b = m b.
Proof.
  intros H. unfold wstore.
  destruct (Z.eqb_spec b a); [contradiction|reflexivity].
Qed.

Lemma split_words (d : Z) :
  in_u64 d ->
  in_u32 (u32 (Z.land d 0xffffffff)) /\ in_u32 (u32 (Z.shiftr d 32)) /\
  u32 (Z.land d 0xffffffff) + 2 ^ 32 * u32 (Z.shiftr d 32) = d.
Proof.
  intros Hd. unfold in_u64 in Hd. rewrite modulus64_eq in Hd.
  change 0xffffffff with (Z.ones 32).
  rewrite Z.land_ones by lia. rewrite Z.shiftr_div_pow2 by lia.
  change (2 ^ 32) with 4294967296.
  pose proof (Z.mod_pos_bound d 4294967296 ltac:(lia)) as Hm.
  assert (Hq : 0 <= d / 4294967296 < 4294967296)
    by (split; [apply Z.div_pos; lia|apply Z.div_lt_upper_bound; lia]).
  rewrite !u32_small by (unfold in_u32; rewrite modulus32_eq; lia).
  split; [unfold in_u32; rewrite modulus32_eq; lia|].
  split; [unfold in_u32; rewrite modulus32_eq; lia|].
  pose proof (Z.div_mod d 4294967296 ltac:(lia)). lia.
Qed.

Lemma main_body_spec (fuel : nat) (clock : nat -> Z) (x l : Z)
      (k : nat) (m : wmemory) (k' : nat) (m' : wmemory) :
  clock_ok clock ->
  main_body fuel clock x l (l + 4) (k, m) = Some (k', m') ->
  (k <= k')%nat /\
  (forall a, a <> l -> a <> l + 4 -> a <> l + 8 -> m' a = m a) /\
  record_ok clock k k' m' l x.
Proof.
  intros Hok H. unfold main_body in H. cbn [fst snd] in H.
  destruct (get_cycles fuel clock k) as [[t1 k1]|] eqn:G1; [|discriminate].
  cbn [bind fst snd] in H.
  destruct (fast_rsqrt x) as [y|] eqn:Hy; [|discriminate].
  cbn [bind] in H.
  destruct (get_cycles fuel clock k1) as [[t2 k2]|] eqn:G2; [|discriminate].
  cbn [bind fst snd] in H.
  destruct (some_pair_inv _ _ _ _ H) as [Ek Em]. subst k'.
  destruct (get_cycles_snapshot_aux _ _ _ _ _ Hok G1) as [Hk1 Ht1].
  destruct (get_cycles_snapshot_aux _ _ _ _ _ Hok G2) as [Hk2 Ht2].
  assert (Hle : t1 <= t2).
  { subst t1 t2. apply clock_ok_le; [assumption|lia]. }
  assert (Hd : in_u64 (t2 - t1)).
  { destruct (Hok (k2 - 2)%nat) as [[_ Hhi] _].
    destruct (Hok (k1 - 2)%nat) as [[Hlo _] _].
    subst t1 t2. unfold in_u64. lia. }
  rewrite (u64_small _ Hd) in Em.
  destruct (split_words _ Hd) as (W1 & W2 & W3).
  split; [lia|]. split.
  - intros a H1 H2 H3. subst m'.
    rewrite !wstore_other by lia. reflexivity.
  - exists y, (k1 - 2)%nat, (k2 - 2)%nat.
    split; [exact Hy|]. subst m'.
    replace (l + 4 + 4) with (l + 8) by lia.
    split; [rewrite !wstore_other by lia; apply wstore_same|].
    split; [lia|]. split; [lia|]. split; [lia|].
    rewrite (wstore_other _ (l + 8) (l + 4)) by lia.
    rewrite !wstore_same.
    split; [exact W1|]. split; [exact W2|].
    rewrite W3. subst t1 t2. reflexivity.
Qed.

Lemma record_ok_mono (clock : nat -> Z) (k1 k2 k1' k2' : nat)
      (m m' : wmemory) (l x : Z) :
  (k1' <= k1)%nat -> (k2 <= k2')%nat ->
  m' l = m l -> m' (l + 4) = m (l + 4) -> m' (l + 8) = m (l + 8) ->
  record_ok clock k1 k2 m l x -> record_ok clock k1' k2' m' l x.
Proof.
  intros H1 H2 E0 E4 E8 (r & s & e & Hr & Hm & Hs & Hse & He & U1 & U2 & Hd).
  exists r, s, e. rewrite E0, E4, E8.
  split; [exact Hr|]. split; [exact Hm|].
  split; [lia|]. split; [lia|]. split; [lia|].
  split; [exact U1|]. split; [exact U2|exact Hd].
Qed.

Lemma main_loop_spec (fuel : nat) (clock : nat -> Z) (xs : list Z) :
  clock_ok clock ->
  forall (l : Z) (k : nat) (m : wmemory) (k' : nat) (m' : wmemory),
    main_loop fuel clock xs l (l + 4) (k, m) = Some (k', m') ->
    (k <= k')%nat /\
    (forall a, a < l \/ l + 12 * Z.of_nat (length xs) <= a -> m' a = m a) /\
    (forall i x, nth_error xs i = Some x ->
                 record_ok clock k k' m' (l + 12 * Z.of_nat i) x).
Proof.
  intros Hok. induction xs as [|x xs IH]; intros l k m k' m' H.
  - cbn [main_loop] in H.
    destruct (some_pair_inv _ _ _ _ H) as [-> ->].
    split; [lia|]. split; [reflexivity|].
    intros i y Hn. destruct i; discriminate.
  - cbn [main_loop] in H.
    destruct (main_body fuel clock x l (l + 4) (k, m)) as [[k1 m1]|] eqn:B;
      [|discriminate].
    cbn [bind] in H.
    replace (l + 4 + 12) with (l + 12 + 4) in H by lia.
    destruct (main_body_spec _ _ _ _ _ _ _ _ Hok B) as (Hk1 & Hf1 & Hr1).
    destruct (IH _ _ _ _ _ H) as (Hk2 & Hf2 & Hr2).
    cbn [length]. rewrite Nat2Z.inj_succ.
    split; [lia|]. split.
    + intros a Ha. rewrite Hf2 by lia. apply Hf1; lia.
    + intros i y Hn. destruct i as [|i].
      * cbn [nth_error] in Hn. injection Hn as <-.
        replace (l + 12 * Z.of_nat 0) with l by lia.
        apply (record_ok_mono clock k k1 k k' m1 m'); try lia;
          try (apply Hf2; lia). exact Hr1.
      * cbn [nth_error] in Hn.
        replace (l + 12 * Z.of_nat (S i)) with (l + 12 + 12 * Z.of_nat i)
          by lia.
        apply (record_ok_mono clock k1 k' k k' m' m'); try lia;
          try reflexivity.
        apply Hr2. exact Hn.
Qed.

Lemma main_loop_runs (fuel : nat) (clock : nat -> Z) (xs : list Z) :
  clock_ok clock ->
  (forall k, clock (k + 5)%nat - clock k < 2 ^ 32) ->
  (2 <= fuel)%nat ->
  Forall in_u32 xs ->
  forall l j st, exists st', main_loop fuel clock xs l j st = Some st'.
Proof.
  intros Hok Hslow Hfuel Hxs.
  induction Hxs as [|x xs Hx Hxs IH]; intros l j [k m].
  - eexists. reflexivity.
  - cbn [main_loop]. unfold main_body. cbn [fst snd].
    destruct (get_cycles_terminates_aux fuel clock k Hok (Hslow k) Hfuel)
      as (t1 & k1 & G1 & _).
    rewrite G1. cbn [bind fst snd].
    assert (Hy : exists y, fast_rsqrt x = Some y).
    { destruct (Z.eq_dec x 0) as [->|Hx0]; [eexists; reflexivity|].
      destruct (fast_rsqrt_nonzero_cases x Hx) as (y & Hy & _);
        [destruct Hx; lia|].
      exists y. exact Hy. }
    destruct Hy as [y Hy]. rewrite Hy. cbn [bind].
    destruct (get_cycles_terminates_aux fuel clock k1 Hok (Hslow k1) Hfuel)
      as (t2 & k2 & G2 & _).
    rewrite G2. cbn [bind fst snd].
    apply IH.
Qed.

(** ** Lower bounds by covering the inputs with intervals *)

Lemma all_between_spec (n : nat) (u : Z) (p : Z -> bool) :
  all_between n u p = true ->
  forall v, u <= v < u + Z.of_nat n -> p v = true.
Proof.
  revert u. induction n as [|n IH]; intros u H v Hv.
  - simpl in Hv. lia.
  - cbn [all_between] in H.
    destruct (p u) eqn:Hp; [|discriminate].
    destruct (Z.eq_dec v u) as [->|Hne]; [exact Hp|].
    apply (IH (u + 1) H). lia.
Qed.

Lemma est_val_eq (x y : Z) :
  in_u32 x -> 1 < x -> rsqrt_estimate x = Some y -> est_val x = y.
Proof.
  intros Hx Hgt H.
  destruct (exp_bracket x Hx Hgt) as [He Hb].
  assert (El : Z.log2 x = 31 - clz x).
  { rewrite clz_log2 by (assumption || lia). lia. }
  unfold est_val. cbv zeta. rewrite El.
  unfold rsqrt_estimate in H. cbv zeta in H.
  destruct (table_step (31 - clz x)) as (y0 & y_next & Hy0 & Hyn & _);
    [lia|].
  rewrite Hy0, Hyn. rewrite Hy0 in H. cbn [bind] in H.
  rewrite (rsqrt_estimate_formula x _ y0 y_next He Hb Hy0 Hyn) in H.
  congruence.
Qed.

(** The update is antitone in [x]. *)
Lemma newton_exact_antitone_x (x b u : Z) :
  0 <= u -> x <= b -> newton_exact b u <= newton_exact x u.
Proof.
  intros Hu Hxb. unfold newton_exact.
  apply Z.div_le_mono; [lia|].
  apply Z.mul_le_mono_nonneg_l; [exact Hu|].
  assert (x * (u * u) / 65536 <= b * (u * u) / 65536).
  { apply Z.div_le_mono; [lia|]. apply Z.mul_le_mono_nonneg_r; nia. }
  lia.
Qed.

Section Cover.

(** A test [ok] whose success at [(a, rb)] gives the property [P] at every
    larger input with a larger result. *)
Variable ok : Z -> Z -> bool.
Variable P : Z -> Z -> Prop.
Hypothesis ok_sound :
  forall a rb x r, ok a rb = true -> a <= x -> rb <= r -> P x r.

Lemma interval_ok_sound (a b : Z) :
  interval_ok ok a b = true ->
  forall x, a <= x <= b -> exists r, fast_rsqrt x = Some r /\ P x r.
Proof using ok_sound.
  intros H x Hx. unfold interval_ok in H.
  destruct ((2 <=? a) && (a <=? b) && (b <? 2 ^ 32)) eqn:Hc; [|discriminate].
  apply andb_prop in Hc. destruct Hc as [Hc Hb32].
  apply andb_prop in Hc. destruct Hc as [Ha2 Hab].
  apply Z.leb_le in Ha2, Hab. apply Z.ltb_lt in Hb32.
  change (2 ^ 32) with 4294967296 in *.
  cbv zeta in H.
  destruct ((0 <=? est_val b)
            && (b * (est_val a * est_val a) / 65536 <=? 196608)) eqn:Hc2;
    [|discriminate].
  apply andb_prop in Hc2. destruct Hc2 as [Hyb Hq].
  apply Z.leb_le in Hyb, Hq.
  assert (Ua : in_u32 a) by (apply in_u32_intro; lia).
  assert (Ux : in_u32 x) by (apply in_u32_intro; lia).
  assert (Ub : in_u32 b) by (apply in_u32_intro; lia).
  destruct (rsqrt_estimate_antitone_aux a x Ua Ux ltac:(lia) ltac:(lia))
    as (ya & y & Ea & Ex & Hya).
  destruct (rsqrt_estimate_antitone_aux x b Ux Ub ltac:(lia) ltac:(lia))
    as (y' & yb & Ex' & Eb & Hyb').
  assert (y' = y) by congruence. subst y'.
  rewrite (est_val_eq a ya Ua ltac:(lia) Ea),
    (est_val_eq b yb Ub ltac:(lia) Eb) in *.
  destruct (fast_rsqrt_analysis x Ux ltac:(lia))
    as (y'' & u & r & Ex'' & _ & Eu & _ & Er & Hf & _ & Hub & _ & Hu1).
  assert (y'' = y) by congruence. subst y''.
  exists r. split; [exact Hf|].
  set (qhi := b * (ya * ya) / 65536) in *.
  set (ulo := yb * (196608 - qhi) / 131072) in *.
  assert (Hulo : ulo <= u).
  { rewrite Eu. unfold ulo, newton_exact.
    apply Z.div_le_mono; [lia|].
    assert (x * (y * y) / 65536 <= qhi).
    { unfold qhi. apply Z.div_le_mono; [lia|].
      assert (y * y <= ya * ya) by nia.
      assert (0 <= y * y) by nia.
      transitivity (x * (ya * ya)).
      - apply Z.mul_le_mono_nonneg_l; lia.
      - apply Z.mul_le_mono_nonneg_r; nia. }
    apply Z.mul_le_mono_nonneg; lia. }
  assert (Humax : u <= Z.sqrt (newton_bound / a)).
  { apply Z.sqrt_le_square; [|lia|].
    - apply Z.div_pos; [unfold newton_bound|]; lia.
    - apply Z.div_le_lower_bound; [lia|]. nia. }
  assert (Hp : ok a (newton_exact b u) = true).
  { apply (all_between_spec _ _ _ H).
    rewrite Z2Nat.id by lia. lia. }
  apply (ok_sound a (newton_exact b u)); [exact Hp|lia|].
  rewrite Er. apply newton_exact_antitone_x; lia.
Qed.

Lemma first_ok_sound (ws : list Z) (a hi b : Z) :
  first_ok ok ws a hi = Some b -> interval_ok ok a b = true.
Proof.
  induction ws as [|w ws IH]; intros H; [discriminate|].
  cbn [first_ok] in H. cbv zeta in H.
  destruct (interval_ok ok a (Z.min (a + w) hi)) eqn:E.
  - injection H as <-. exact E.
  - apply IH. exact H.
Qed.

Lemma cover_sound (fuel : nat) (a hi w : Z) :
  cover ok fuel a hi w = true ->
  forall x, a <= x <= hi -> exists r, fast_rsqrt x = Some r /\ P x r.
Proof using ok_sound.
  revert a w. induction fuel as [|fuel IH]; intros a w H x Hx;
    [discriminate|].
  cbn [cover] in H.
  destruct (Z.ltb_spec hi a); [lia|].
  destruct (first_ok ok (widths w) a hi) as [b|] eqn:E; [|discriminate].
  pose proof (first_ok_sound _ _ _ _ E) as Hok.
  destruct (Z.le_gt_cases x b).
  - apply (interval_ok_sound a b Hok). lia.
  - apply (IH (b + 1) (b - a) H). lia.
Qed.

End Cover.

Lemma within_two_sound (a rb x r : Z) :
  within_two a rb = true -> a <= x -> rb <= r ->
  2 ^ 32 <= x * ((r + 2) * (r + 2)).
Proof.
  unfold within_two. intros H Hx Hr.
  apply andb_prop in H. destruct H as [H0 H1].
  apply Z.leb_le in H0, H1.
  assert ((rb + 2) * (rb + 2) <= (r + 2) * (r + 2)) by nia.
  assert (0 <= a) by (destruct (Z.le_gt_cases 0 a); [assumption|];
                      change (2 ^ 32) with 4294967296 in H1; nia).
  nia.
Qed.

Lemma within_8_percent_sound (a rb x r : Z) :
  within_8_percent a rb = true -> a <= x -> rb <= r ->
  8464 * 2 ^ 32 <= 10000 * (x * (r * r)).
Proof.
  unfold within_8_percent. intros H Hx Hr.
  apply andb_prop in H. destruct H as [H0 H1].
  apply Z.leb_le in H0, H1.
  assert (rb * rb <= r * r) by nia.
  assert (0 <= a) by (destruct (Z.le_gt_cases 0 a); [assumption|];
                      change (2 ^ 32) with 4294967296 in H1; nia).
  nia.
Qed.

Lemma accuracy_ok_sound (a rb x r : Z) :
  accuracy_ok a rb = true -> a <= x -> rb <= r ->
  2 ^ 32 <= x * ((r + 2) * (r + 2)) /\
  (x < 25043780 -> 8464 * 2 ^ 32 <= 10000 * (x * (r * r))).
Proof.
  unfold accuracy_ok. intros H Hx Hr.
  apply andb_prop in H. destruct H as [H2 H8].
  split; [exact (within_two_sound a rb x r H2 Hx Hr)|].
  intros Hlt. apply orb_prop in H8. destruct H8 as [H8|H8].
  - exact (within_8_percent_sound a rb x r H8 Hx Hr).
  - apply Z.leb_le in H8. lia.
Qed.

Lemma cover_accuracy :
  cover accuracy_ok (Z.to_nat 20000) 2 (2 ^ 32 - 1) 0 = true.
Proof. vm_cast_no_check (@eq_refl bool true). Qed.

Lemma fast_rsqrt_accuracy (x : Z) :
  in_u32 x -> 1 <= x ->
  exists r, fast_rsqrt x = Some r /\
            2 ^ 32 <= x * ((r + 2) * (r + 2)) /\
            (x < 25043780 -> 8464 * 2 ^ 32 <= 10000 * (x * (r * r))).
Proof.
  intros Hx H1.
  destruct (Z.eq_dec x 1) as [->|Hne].
  - exists 65536. split; [reflexivity|].
    split; [|intros _]; vm_compute; discriminate.
  - apply (cover_sound accuracy_ok _ accuracy_ok_sound _ _ _ _
                       cover_accuracy).
    unfold in_u32 in Hx. rewrite modulus32_eq in Hx.
    change (2 ^ 32) with 4294967296. lia.
Qed.

Lemma fast_rsqrt_lower (x : Z) :
  in_u32 x -> 1 <= x ->
  exists r, fast_rsqrt x = Some r /\ 2 ^ 32 <= x * ((r + 2) * (r + 2)).
Proof.
  intros Hx H1.
  destruct (fast_rsqrt_accuracy x Hx H1) as (r & Hf & H2 & _).
  exists r. split; assumption.
Qed.

Lemma fast_rsqrt_8_percent (x : Z) :
  1 <= x < 25043780 ->
  exists r, fast_rsqrt x = Some r /\
            8464 * 2 ^ 32 <= 10000 * (x * (r * r)).
Proof.
  intros H1.
  assert (Hx : in_u32 x) by (apply in_u32_intro; lia).
  destruct (fast_rsqrt_accuracy x Hx ltac:(lia)) as (r & Hf & _ & H8).
  exists r. split; [assumption|]. apply H8. lia.
Qed.

(** ** fast_rsqrt: accuracy *)

Lemma sqrt_facts (x : Z) :
  1 <= x ->
  (0 < sqrt (IZR x))%R /\ (sqrt (IZR x) * sqrt (IZR x) = IZR x)%R.
Proof.
  intros H1.
  assert (Hx : (0 < IZR x)%R) by (apply IZR_lt; lia).
  split; [apply sqrt_lt_R0; exact Hx|apply sqrt_sqrt; lra].
Qed.

Lemma Rsq_lt (a b : R) : (0 <= a -> a < b -> a * a < b * b)%R.
Proof. intros Ha Hab. nra. Qed.

Lemma Rsq_le (a b : R) : (0 <= a -> a <= b -> a * a <= b * b)%R.
Proof. intros Ha Hab. nra. Qed.

(** X14: for every 32-bit [x >= 1] the result is less than 2 below the true
    value: [2^32 <= x * (r + 2)^2], that is [65536 / sqrt x <= r + 2]. *)
Theorem fast_rsqrt_lower_bound (x : Z) :
  in_u32 x -> 1 <= x ->
  exists r,
    fast_rsqrt x = Some r /\
    2 ^ 32 <= x * ((r + 2) * (r + 2)) /\
    (65536 / sqrt (IZR x) <= IZR r + 2)%R.
Proof.
  intros Hx H1.
  destruct (fast_rsqrt_lower x Hx H1) as (r & Hf & Hb).
  destruct (fast_rsqrt_nonzero_cases x Hx H1) as (r' & Hf' & Hr & _).
  assert (r' = r) by congruence. subst r'.
  exists r. split; [exact Hf|]. split; [exact Hb|].
  destruct (sqrt_facts x H1) as [Hs Hss].
  set (s := sqrt (IZR x)) in *.
  assert (HbR : (4294967296 <= IZR x * ((IZR r + 2) * (IZR r + 2)))%R).
  { change 2%R with (IZR 2). rewrite <- !plus_IZR, <- !mult_IZR.
    apply IZR_le. exact Hb. }
  assert (Hr0 : (1 <= IZR r)%R) by (apply IZR_le; lia).
  apply (Rmult_le_reg_r s); [exact Hs|].
  unfold Rdiv. rewrite Rmult_assoc, Rinv_l by lra.
  apply Rnot_lt_le. intros Hc.
  rewrite Rmult_1_r in Hc.
  assert (((IZR r + 2) * s) * ((IZR r + 2) * s) < 65536 * 65536)%R
    by (apply Rsq_lt; [nra|lra]).
  replace (((IZR r + 2) * s) * ((IZR r + 2) * s))%R
    with ((s * s) * ((IZR r + 2) * (IZR r + 2)))%R in H by ring.
  rewrite Hss in H. lra.
Qed.

Lemma fast_rsqrt_lower_bound_100 :
  exists r,
    fast_rsqrt 100 = Some r /\
    2 ^ 32 <= 100 * ((r + 2) * (r + 2)) /\
    (65536 / sqrt (IZR 100) <= IZR r + 2)%R.
Proof.
  assert (Hx : in_u32 100) by (apply in_u32_intro; lia).
  assert (H1 : 1 <= 100) by lia.
  exact (fast_rsqrt_lower_bound 100 Hx H1).
Defined.

(** X15: the error stated in the source, at most 8 percent: for every [x]
    from 1 to 25043779 the result is within 8 percent of [65536 / sqrt x];
    at 25043780 it is not (the result is 12, more than 8 percent below). *)
Theorem fast_rsqrt_relative_error (x : Z) :
  1 <= x < 25043780 ->
  (exists r,
      fast_rsqrt x = Some r /\
      (92 / 100 * (65536 / sqrt (IZR x)) <= IZR r)%R /\
      (IZR r <= 108 / 100 * (65536 / sqrt (IZR x)))%R) /\
  fast_rsqrt 25043780 = Some 12 /\
  (12 < 92 / 100 * (65536 / sqrt (IZR 25043780)))%R.
Proof.
  intros Hx. split.
  - assert (Ux : in_u32 x) by (apply in_u32_intro; lia).
    destruct (fast_rsqrt_8_percent x Hx) as (r & Hf & Hlo).
    destruct (fast_rsqrt_nonzero_cases x Ux ltac:(lia))
      as (r' & Hf' & Hr & Hhi & _).
    assert (r' = r) by congruence. subst r'.
    exists r. split; [exact Hf|].
    destruct (sqrt_facts x ltac:(lia)) as [Hs Hss].
    set (s := sqrt (IZR x)) in *.
    assert (Hr0 : (1 <= IZR r)%R) by (apply IZR_le; lia).
    assert (HloR : (8464 * 4294967296 <= 10000 * (IZR x * (IZR r * IZR r)))%R).
    { rewrite <- !mult_IZR. apply IZR_le. exact Hlo. }
    assert (HhiR : (IZR x * (IZR r * IZR r) <= 4295032831)%R).
    { rewrite <- !mult_IZR. apply IZR_le. exact Hhi. }
    rewrite <- Hss in HloR, HhiR.
    split.
    + apply (Rmult_le_reg_r s); [exact Hs|].
      unfold Rdiv. rewrite !Rmult_assoc, Rinv_l by lra.
      apply Rnot_lt_le. intros Hc.
      rewrite Rmult_1_r in Hc.
      assert ((IZR r * s) * (IZR r * s)
              < (92 * / 100 * 65536) * (92 * / 100 * 65536))%R
        by (apply Rsq_lt; [nra|lra]).
      nra.
    + apply (Rmult_le_reg_r s); [exact Hs|].
      unfold Rdiv. rewrite !Rmult_assoc, Rinv_l by lra.
      apply Rnot_lt_le. intros Hc.
      rewrite Rmult_1_r in Hc.
      assert ((108 * / 100 * 65536) * (108 * / 100 * 65536)
              < (IZR r * s) * (IZR r * s))%R
        by (apply Rsq_lt; [lra|lra]).
      nra.
  - split; [vm_compute; reflexivity|].
    destruct (sqrt_facts 25043780 ltac:(lia)) as [Hs Hss].
    set (s := sqrt (IZR 25043780)) in *.
    apply (Rmult_lt_reg_r s); [exact Hs|].
    unfold Rdiv. rewrite !Rmult_assoc, Rinv_l by lra.
    apply Rnot_le_lt. intros Hc.
    rewrite Rmult_1_r in Hc.
    assert ((92 * / 100 * 65536) * (92 * / 100 * 65536)
            <= (12 * s) * (12 * s))%R
      by (apply Rsq_le; [lra|lra]).
    nra.
Qed.

Lemma fast_rsqrt_relative_error_100 :
  exists r,
    fast_rsqrt 100 = Some r /\
    (92 / 100 * (65536 / sqrt (IZR 100)) <= IZR r)%R /\
    (IZR r <= 108 / 100 * (65536 / sqrt (IZR 100)))%R.
Proof.
  assert (Hx : 1 <= 100 < 25043780) by lia.
  exact (proj1 (fast_rsqrt_relative_error 100 Hx)).
Defined.

(** X16: [fast_rsqrt] is antitone up to 2: for [1 <= x1 <= x2] the result at
    [x2] is at most the result at [x1] plus 2.  It is not antitone: the
    results at 65535 and 65536 are 255 and 256. *)
Theorem fast_rsqrt_quasi_monotone (x1 x2 : Z) :
  in_u32 x1 -> in_u32 x2 -> 1 <= x1 -> x1 <= x2 ->
  (exists r1 r2,
      fast_rsqrt x1 = Some r1 /\ fast_rsqrt x2 = Some r2 /\ r2 <= r1 + 2) /\
  fast_rsqrt 65535 = Some 255 /\ fast_rsqrt 65536 = Some 256.
Proof.
  intros H1 H2 Hpos Hle. split; [|split; vm_compute; reflexivity].
  destruct (fast_rsqrt_lower x1 H1 Hpos) as (r1 & Hf1 & Hlo).
  destruct (fast_rsqrt_nonzero_cases x1 H1 Hpos) as (r1' & Hf1' & Hr1 & _).
  assert (r1' = r1) by congruence. subst r1'.
  destruct (fast_rsqrt_nonzero_cases x2 H2 ltac:(lia))
    as (r2 & Hf2 & Hr2 & Hhi & _).
  exists r1, r2. split; [exact Hf1|]. split; [exact Hf2|].
  unfold newton_bound in Hhi. change (2 ^ 32) with 4294967296 in Hlo.
  destruct (Z.le_gt_cases r2 (r1 + 2)) as [|Hgt]; [assumption|exfalso].
  assert (Hx1 : 65536 <= x1 * (r1 + 2)).
  { destruct (Z.le_gt_cases 65536 (x1 * (r1 + 2))); [assumption|].
    assert (x1 * ((r1 + 2) * (r1 + 2)) <= x1 * (r1 + 2) * (x1 * (r1 + 2)))
      by nia.
    nia. }
  assert (Hsq : (r1 + 3) * (r1 + 3) <= r2 * r2) by nia.
  assert (x1 * ((r1 + 3) * (r1 + 3)) <= x2 * (r2 * r2)).
  { transitivity (x1 * (r2 * r2)).
    - apply Z.mul_le_mono_nonneg_l; lia.
    - apply Z.mul_le_mono_nonneg_r; nia. }
  nia.
Qed.

Lemma fast_rsqrt_quasi_monotone_100_130 :
  exists r1 r2,
    fast_rsqrt 100 = Some r1 /\ fast_rsqrt 130 = Some r2 /\ r2 <= r1 + 2.
Proof.
  assert (H1 : in_u32 100) by (apply in_u32_intro; lia).
  assert (H2 : in_u32 130) by (apply in_u32_intro; lia).
  assert (Hp : 1 <= 100) by lia.
  assert (Hle : 100 <= 130) by lia.
  exact (proj1 (fast_rsqrt_quasi_monotone 100 130 H1 H2 Hp Hle)).
Defined.

(** X25: for every 32-bit [x > 1] the exponent of step 1 is [log2 x], and
    the estimate of steps 2 and 3 is one integer formula of [x], with no
    wrap-around, for powers of two as well:
    [y0 - (y0 - y_next) * ((x - 2^e) * 65536 / 2^e) / 65536]. *)
Theorem rsqrt_estimate_closed_form (x : Z) :
  in_u32 x -> 1 < x ->
  exists y0 y_next,
    31 - clz x = Z.log2 x /\
    table_get (Z.log2 x) = Some y0 /\
    interp_y_next (Z.log2 x) = Some y_next /\
    rsqrt_estimate x
    = Some (y0 - (y0 - y_next)
                 * ((x - 2 ^ Z.log2 x) * 65536 / 2 ^ Z.log2 x) / 65536).
Proof.
  intros Hx Hgt.
  destruct (exp_bracket x Hx Hgt) as [He Hb].
  assert (El : 31 - clz x = Z.log2 x).
  { rewrite clz_log2 by (assumption || lia). lia. }
  rewrite El in He, Hb.
  destruct (table_step (Z.log2 x)) as (y0 & y_next & Hy0 & Hyn & _); [lia|].
  exists y0, y_next.
  split; [exact El|]. split; [exact Hy0|]. split; [exact Hyn|].
  unfold rsqrt_estimate. cbv zeta. rewrite El, Hy0. cbn [bind].
  exact (rsqrt_estimate_formula x _ y0 y_next He Hb Hy0 Hyn).
Qed.

Lemma rsqrt_estimate_closed_form_100 :
  exists y0 y_next,
    31 - clz 100 = Z.log2 100 /\
    table_get (Z.log2 100) = Some y0 /\
    interp_y_next (Z.log2 100) = Some y_next /\
    rsqrt_estimate 100
    = Some (y0 - (y0 - y_next)
                 * ((100 - 2 ^ Z.log2 100) * 65536 / 2 ^ Z.log2 100) / 65536).
Proof.
  assert (Hx : in_u32 100) by (apply in_u32_intro; lia).
  assert (Hgt : 1 < 100) by lia.
  exact (rsqrt_estimate_closed_form 100 Hx Hgt).
Defined.

(** X26: at the powers of four up to [4^15] the result is exact:
    [fast_rsqrt (4^k) = 2^(16-k)], which is [65536 / sqrt (4^k)]. *)
Theorem fast_rsqrt_pow4_exact (k : Z) :
  0 <= k <= 15 ->
  fast_rsqrt (4 ^ k) = Some (2 ^ (16 - k)) /\
  4 ^ k * (2 ^ (16 - k) * 2 ^ (16 - k)) = 2 ^ 32.
Proof.
  intros Hk.
  assert (H : pow4_exact k = true).
  { apply (Zrange_forallb pow4_exact 16); [vm_compute; reflexivity|lia]. }
  unfold pow4_exact in H.
  destruct (fast_rsqrt (4 ^ k)) as [r|]; [|discriminate].
  apply andb_prop in H. destruct H as [H1 H2].
  apply Z.eqb_eq in H1, H2. subst r.
  split; [reflexivity|exact H2].
Qed.

Lemma fast_rsqrt_pow4_exact_3 :
  fast_rsqrt (4 ^ 3) = Some (2 ^ (16 - 3)) /\
  4 ^ 3 * (2 ^ (16 - 3) * 2 ^ (16 - 3)) = 2 ^ 32.
Proof.
  assert (Hk : 0 <= 3 <= 15) by lia.
  exact (fast_rsqrt_pow4_exact 3 Hk).
Defined.

(** ** memcpy, get_cycles and main on sample inputs *)

Lemma sample_clock_ok : clock_ok sample_clock.
Proof.
  intros i. unfold sample_clock, in_u64. rewrite modulus64_eq. lia.
Qed.

Lemma memcpy_frame_sample :
  fst (memcpy sample_memory 10 20 4) 3 = sample_memory 3 /\
  snd (memcpy sample_memory 10 20 4) = 10.
Proof.
  assert (H : 3 < 10 \/ 10 + 4 <= 3) by (left; lia).
  exact (memcpy_frame sample_memory 10 20 4 3 H).
Defined.

Lemma memcpy_copies_sample :
  fst (memcpy sample_memory 10 20 4) (10 + 1) = sample_memory (20 + 1).
Proof.
  assert (H : 10 <= 20 \/ 20 + 4 <= 10) by (left; lia).
  assert (Hi : 0 <= 1 < 4) by lia.
  exact (memcpy_copies sample_memory 10 20 4 1 H Hi).
Defined.

Lemma memcpy_overlap_sample :
  fst (memcpy sample_memory 22 20 6) (22 + 3)
  = sample_memory (20 + 3 mod 2).
Proof.
  assert (Hk : 0 < 2) by lia.
  assert (Hd : 22 = 20 + 2) by reflexivity.
  assert (Hi : 0 <= 3 < 6) by lia.
  exact (memcpy_overlap sample_memory 22 20 6 2 3 Hk Hd Hi).
Defined.

(** X20: on a 64-bit counter that never runs backwards, a value returned by
    [get_cycles] is never torn: it is exactly the counter at the [cycle]
    read of the last attempt. *)
Theorem get_cycles_snapshot (fuel : nat) (clock : nat -> Z) (k : nat)
        (t : Z) (k' : nat) :
  clock_ok clock ->
  get_cycles fuel clock k = Some (t, k') ->
  (k + 3 <= k')%nat /\ t = clock (k' - 2)%nat /\ in_u64 t.
Proof.
  intros Hok H.
  destruct (get_cycles_snapshot_aux fuel clock k t k' Hok H) as [Hk Ht].
  split; [exact Hk|]. split; [exact Ht|].
  rewrite Ht. apply Hok.
Qed.

Lemma get_cycles_snapshot_sample :
  (0 + 3 <= 3)%nat /\ 5 = sample_clock (3 - 2)%nat /\ in_u64 5.
Proof.
  assert (H : get_cycles 1 sample_clock 0 = Some (5, 3%nat)) by reflexivity.
  exact (get_cycles_snapshot 1 sample_clock 0 5 3 sample_clock_ok H).
Defined.

(** X21: when fewer than [2^32] cycles pass over six register reads,
    [get_cycles] returns after one or two attempts. *)
Theorem get_cycles_terminates (fuel : nat) (clock : nat -> Z) (k : nat) :
  clock_ok clock ->
  clock (k + 5)%nat - clock k < 2 ^ 32 ->
  (2 <= fuel)%nat ->
  exists t k', get_cycles fuel clock k = Some (t, k') /\
               (k' = k + 3 \/ k' = k + 6)%nat.
Proof. exact (get_cycles_terminates_aux fuel clock k). Qed.

Lemma get_cycles_terminates_sample :
  exists t k', get_cycles 2 sample_clock 0 = Some (t, k') /\
               (k' = 0 + 3 \/ k' = 0 + 6)%nat.
Proof.
  assert (Hs : sample_clock (0 + 5)%nat - sample_clock 0%nat < 2 ^ 32)
    by reflexivity.
  assert (Hf : (2 <= 2)%nat) by lia.
  exact (get_cycles_terminates 2 sample_clock 0 sample_clock_ok Hs Hf).
Defined.



(** X23: [main] returns 0, writes no word outside
    [4, 124), and leaves the ten records of its inputs at [4 + 12 * i]. *)
Theorem main_frame (fuel : nat) (clock : nat -> Z) (k : nat) (m : wmemory)
        (st' : nat * wmemory) (ret : Z) :
  clock_ok clock ->
  main fuel clock (k, m) = Some (st', ret) ->
  ret = 0 /\
  (forall a, a < 4 \/ 124 <= a -> snd st' a = m a) /\
  (forall i x, nth_error main_xs i = Some x ->
               record_ok clock k (fst st') (snd st') (4 + 12 * Z.of_nat i) x).
Proof.
  intros Hok H. unfold main in H.
  destruct (main_loop fuel clock main_xs 4 8 (k, m)) as [[k' m']|] eqn:E;
    [|discriminate].
  cbn [bind] in H.
  destruct (some_pair_inv _ _ _ _ H) as [<- <-].
  change 8 with (4 + 4) in E.
  destruct (main_loop_spec fuel clock main_xs Hok 4 k m k' m' E)
    as (_ & Hf & Hr).
  split; [reflexivity|]. split; [|exact Hr].
  intros a Ha. cbn [snd]. apply Hf.
  change (Z.of_nat (length main_xs)) with 10. lia.
Qed.

Lemma main_frame_sample :
  exists st',
    main 1 sample_clock (0%nat, sample_words) = Some (st', 0) /\
    (forall a, a < 4 \/ 124 <= a -> snd st' a = sample_words a) /\
    (forall i x, nth_error main_xs i = Some x ->
                 record_ok sample_clock 0 (fst st') (snd st')
                           (4 + 12 * Z.of_nat i) x).
Proof.
  destruct (main 1 sample_clock (0%nat, sample_words)) as [[st' ret]|] eqn:E.
  - pose proof (main_frame 1 sample_clock 0 sample_words st' ret
                           sample_clock_ok E) as H.
    exists st'. destruct H as (-> & Hf & Hr).
    split; [reflexivity|]. split; [exact Hf|exact Hr].
  - vm_compute in E. discriminate E.
Defined.

Lemma main_xs_u32 : Forall in_u32 main_xs.
Proof.
  unfold main_xs. repeat constructor; apply in_u32_intro; lia.
Qed.

(** X24: on a counter that never runs backwards and advances by fewer than
    [2^32] cycles over any six reads, [main] runs to its end and returns
    0. *)
Theorem main_terminates (fuel : nat) (clock : nat -> Z)
        (st : nat * wmemory) :
  clock_ok clock ->
  (forall k, clock (k + 5)%nat - clock k < 2 ^ 32) ->
  (2 <= fuel)%nat ->
  exists st', main fuel clock st = Some (st', 0).
Proof.
  intros Hok Hslow Hfuel. unfold main.
  destruct (main_loop_runs fuel clock main_xs Hok Hslow Hfuel main_xs_u32
                           4 8 st) as [st' E].
  exists st'. rewrite E. reflexivity.
Qed.

Lemma main_terminates_sample :
  exists st', main 2 sample_clock (0%nat, sample_words) = Some (st', 0).
Proof.
  assert (Hs : forall k,
             sample_clock (k + 5)%nat - sample_clock k < 2 ^ 32)
    by (intros k; reflexivity).
  assert (Hf : (2 <= 2)%nat) by lia.
  exact (main_terminates 2 sample_clock (0%nat, sample_words)
                         sample_clock_ok Hs Hf).
Defined.

(** * Calls and the shared state *)

Lemma pure_ret {A : Type} (a : A) : pure_call (ret a) (Some a).
Proof. intros w _. reflexivity. Qed.

Lemma pure_local {A : Type} (o : option A) : pure_call (local o) o.
Proof. intros w _. reflexivity. Qed.

Lemma pure_bind {A B : Type} (m : comp A) (k : A -> comp B)
      (v : option A) (f : A -> option B) :
  pure_call m v -> (forall a, v = Some a -> pure_call (k a) (f a)) ->
  pure_call (bindc m k) (bind v f).
Proof.
  intros Hm Hk w Hw. unfold bindc. rewrite (Hm w Hw).
  destruct v as [a|]; [|reflexivity].
  cbn [local bind]. exact (Hk a eq_refl w Hw).
Qed.

Lemma pure_load_table (i : Z) : pure_call (load_table i) (table_get i).
Proof.
  intros w Hw. unfold load_table, table_get, local. rewrite Hw.
  destruct (i <? 0); [reflexivity|].
  destruct (nth_error rsqrt_table (Z.to_nat i)); reflexivity.
Qed.

Lemma pure_for_loop {S : Type} (body : Z -> S -> comp S) (f : Z -> S -> S)
      (n : nat) :
  (forall i s, pure_call (body i s) (Some (f i s))) ->
  forall i s, pure_call (for_loop_c n i body s) (Some (for_loop n i f s)).
Proof.
  intros Hb. induction n as [|n IH]; intros i s.
  - apply pure_ret.
  - cbn [for_loop_c for_loop].
    apply (pure_bind _ _ (Some (f i s)) (fun s' => Some (for_loop n (i + 1) f s'))).
    + apply Hb.
    + intros a _. apply IH.
Qed.

Lemma pure_mul32 (a b : Z) : pure_call (mul32_call a b) (Some (mul32 a b)).
Proof.
  unfold mul32_call, mul32. apply pure_for_loop.
  intros i r. apply pure_ret.
Qed.

Lemma pure_clz (x : Z) : pure_call (clz_call x) (Some (clz x)).
Proof.
  intros w Hw. unfold clz_call, clz.
  destruct (x =? 0); [reflexivity|].
  unfold bindc, ret, local.
  destruct (clz_step 3221225472 2
              (clz_step 4026531840 4
                 (clz_step 4278190080 8 (clz_step 4294901760 16 (0, x)))))
    as [n y].
  reflexivity.
Qed.

Lemma pure_interpolate (x exp y : Z) :
  pure_call (interpolate_call x exp y) (interpolate x exp y).
Proof.
  unfold interpolate_call, interpolate.
  apply pure_bind; [apply pure_local|]. intros p _.
  destruct (p <? x); [|apply pure_ret].
  unfold interp_y_next.
  apply pure_bind.
  - destruct (exp <? 31); [apply pure_load_table|apply pure_ret].
  - intros y_next _. cbv zeta.
    apply pure_bind; [apply pure_local|]. intros frac _.
    unfold interp_correction.
    apply (pure_bind _ _ (Some (mul32 (interp_delta y y_next) frac))
                     (fun m => Some (u32 (y - u32 (Z.shiftr m 16))))).
    + apply pure_mul32.
    + intros m _. apply pure_ret.
Qed.

Lemma pure_newton (x y : Z) :
  pure_call (newton_call x y) (Some (newton_step x y)).
Proof.
  unfold newton_call, newton_step.
  apply (pure_bind _ _ (Some (mul32 y y))
           (fun m => Some (u32 (Z.shiftr
              (mul32 y (u32 (u32 (Z.shiftl 3 16)
                             - u32 (Z.shiftr (mul32 x (u32 m)) 16)))) 17))));
    [apply pure_mul32|]. intros m1 _. cbv zeta.
  apply (pure_bind _ _ (Some (mul32 x (u32 m1)))
           (fun m => Some (u32 (Z.shiftr
              (mul32 y (u32 (u32 (Z.shiftl 3 16)
                             - u32 (Z.shiftr m 16)))) 17))));
    [apply pure_mul32|]. intros m2 _. cbv zeta.
  apply (pure_bind _ _ (Some (mul32 y (u32 (u32 (Z.shiftl 3 16)
                                             - u32 (Z.shiftr m2 16)))))
           (fun m => Some (u32 (Z.shiftr m 17))));
    [apply pure_mul32|]. intros m3 _. apply pure_ret.
Qed.

Lemma pure_fast_rsqrt (x : Z) :
  pure_call (fast_rsqrt_call x) (fast_rsqrt x).
Proof.
  unfold fast_rsqrt_call, fast_rsqrt.
  destruct (x =? 0); [apply pure_ret|].
  destruct (x =? 1); [apply pure_ret|].
  apply (pure_bind _ _ (Some (clz x))
           (fun c => y <- table_get (31 - c) ;;
                     y <- interpolate x (31 - c) y ;;
                     Some (for_loop 2 0 (fun _ y => newton_step x y) y)));
    [apply pure_clz|]. intros c _. cbv zeta.
  apply pure_bind; [apply pure_load_table|]. intros y0 _.
  apply pure_bind; [apply pure_interpolate|]. intros y _.
  apply pure_for_loop. intros i s. apply pure_newton.
Qed.

(** The stores and the counter reads of the rest of the program change the
    state, and never the table. *)
Lemma store_word_table (a v : Z) (w : world) :
  exists w', store_word a v w = Some (tt, w') /\
             w_table w' = w_table w /\ w_memory w' a = v.
Proof.
  eexists. split; [reflexivity|]. split; [reflexivity|].
  cbn [w_memory]. unfold wstore. rewrite Z.eqb_refl. reflexivity.
Qed.

Lemma read_counter_table (clock : nat -> Z) (w : world) :
  exists w', read_counter clock w = Some (clock (w_reads w), w') /\
             w_table w' = w_table w /\ w_reads w' = S (w_reads w).
Proof. eexists. split; [reflexivity|]. split; reflexivity. Qed.

(** A store is not a pure call, and [fast_rsqrt] does read the table. *)
Example store_word_not_pure : ~ pure_call (store_word 4 1) (Some tt).
Proof.
  intros H. specialize (H sample_world_1 eq_refl).
  apply (f_equal (fun o => match o with
                           | Some (_, w) => w_memory w 4
                           | None => 0
                           end)) in H.
  vm_compute in H. discriminate H.
Qed.

Example fast_rsqrt_call_reads_table :
  fast_rsqrt_call 4 (World [] sample_words 0) = None /\
  fast_rsqrt_call 4 sample_world_1 = Some (32768, sample_world_1).
Proof. split; reflexivity. Qed.

(** C9: the three functions are deterministic and pure.  Taken as calls on
    the shared state of the program (the table, the memory, the cycle
    counter), two calls with equal arguments made in two states, which may
    differ in memory and counter and hold the table as initialised, return
    the same results and leave both states as they were: no call writes
    shared state, and none reads any but the table, which nothing in the
    program writes. *)
Theorem core_pure (w1 w2 : world) (a1 b1 x1 a2 b2 x2 : Z) :
  w_table w1 = rsqrt_table -> w_table w2 = rsqrt_table ->
  a1 = a2 -> b1 = b2 -> x1 = x2 -> in_u32 x1 ->
  (mul32_call a1 b1 w1 = Some (mul32 a1 b1, w1) /\
   mul32_call a2 b2 w2 = Some (mul32 a1 b1, w2)) /\
  (clz_call x1 w1 = Some (clz x1, w1) /\
   clz_call x2 w2 = Some (clz x1, w2)) /\
  (exists r,
      fast_rsqrt x1 = Some r /\
      fast_rsqrt_call x1 w1 = Some (r, w1) /\
      fast_rsqrt_call x2 w2 = Some (r, w2)).
Proof.
  intros H1 H2 <- <- <- Hx.
  split; [split; [exact (pure_mul32 a1 b1 w1 H1)|exact (pure_mul32 a1 b1 w2 H2)]|].
  split; [split; [exact (pure_clz x1 w1 H1)|exact (pure_clz x1 w2 H2)]|].
  assert (Hr : exists r, fast_rsqrt x1 = Some r).
  { destruct (Z.eq_dec x1 0) as [->|Hx0]; [eexists; reflexivity|].
    destruct (fast_rsqrt_nonzero_cases x1 Hx) as (r & Hr & _);
      [destruct Hx; lia|].
    exists r. exact Hr. }
  destruct Hr as [r Hr]. exists r. split; [exact Hr|].
  pose proof (pure_fast_rsqrt x1 w1 H1) as P1.
  pose proof (pure_fast_rsqrt x1 w2 H2) as P2.
  rewrite Hr in P1, P2. split; [exact P1|exact P2].
Qed.

Lemma core_pure_sample :
  (mul32_call 3 5 sample_world_1 = Some (mul32 3 5, sample_world_1) /\
   mul32_call 3 5 sample_world_2 = Some (mul32 3 5, sample_world_2)) /\
  (clz_call 100 sample_world_1 = Some (clz 100, sample_world_1) /\
   clz_call 100 sample_world_2 = Some (clz 100, sample_world_2)) /\
  (exists r,
      fast_rsqrt 100 = Some r /\
      fast_rsqrt_call 100 sample_world_1 = Some (r, sample_world_1) /\
      fast_rsqrt_call 100 sample_world_2 = Some (r, sample_world_2)).
Proof.
  assert (H1 : w_table sample_world_1 = rsqrt_table) by reflexivity.
  assert (H2 : w_table sample_world_2 = rsqrt_table) by reflexivity.
  assert (Hx : in_u32 100) by (apply in_u32_intro; lia).
  exact (core_pure sample_world_1 sample_world_2 3 5 100 3 5 100
                   H1 H2 eq_refl eq_refl eq_refl Hx).
Defined.
